(** * A file-per-record document store: the [Driver] of [main.go]

    The store keeps every record as one JSON file
    [<dir>/<collection>/<resource>.json] and guards the writers of a
    collection with one [sync.Mutex] per collection.  This development embeds
    the four operations of the driver ([Write], [Read], [ReadAll], [Delete]),
    its constructor [New] and [getOrCreateMutex], together with the part of
    the Go standard library they call:

    - [filepath]: [Clean] and [Join], lexically, on slash-separated paths;
    - [os]: a directory tree with [Stat], [MkdirAll], [WriteFile],
      [ReadFile], [ReadDir] and [Remove];
    - [json]: [MarshalIndent] with a tab indent and [Unmarshal], on JSON
      documents whose numbers are [json.Number] literals;
    - [sync]: a mutex is a flag; a goroutine that locks a held mutex blocks.

    Go's [string] is [string]; Go's [[]byte] is [list ascii]; an [error]
    result is [option error] ([None] is [nil]).

    What the model leaves out.  The file system has no permissions, no
    links, no limits on names and no faults of the device, so a call of
    package [os] fails only for the shape of the tree: a missing entry, a
    file where a directory is needed, a directory where a file is needed,
    a directory that is not empty.  A call of the driver runs alone: other
    goroutines show only as mutexes that are held when the call starts,
    and a call that needs a held mutex blocks.  The value handed to
    [Write] is the JSON document of a Go value made of structs, slices,
    strings, booleans, [nil] and [json.Number], as the records [User] and
    [Address] are; [Read] returns the document a destination of that type
    holds after [Unmarshal]. *)

From Stdlib Require Import Ascii String List NArith Bool Lia.
From stdpp Require Import base option list gmap strings sorting.

#[local] Set Warnings "-register-all,-abstract-large-number".
#[local] Open Scope string_scope.

(** ** Errors *)

(** The errors the driver can return: its own validation error (built with
    [fmt.Errorf]), the errno values of the system calls behind package [os],
    and the two failures of package [json]. *)
Inductive error : Type :=
| Errorf (msg : string)        (* fmt.Errorf(msg) *)
| ErrNotExist                  (* ENOENT: no such file or directory *)
| ErrNotDir                    (* ENOTDIR: a path component is not a directory *)
| ErrIsDir                     (* EISDIR: the path names a directory *)
| ErrNotEmpty                  (* ENOTEMPTY: directory not empty *)
| ErrBusy                      (* EBUSY: the root directory cannot be removed *)
| ErrSyntax                    (* json: malformed input *)
| ErrMaxDepth                  (* json: exceeded max depth *)
| ErrInvalidNumber (n : string) (* json: invalid number literal *).

#[export] Instance error_eq_dec : EqDecision error.
Proof. solve_decision. Defined.

(** [errors.Is(err, fs.ErrNotExist)]. *)
Definition IsNotExist (e : error) : bool :=
  match e with ErrNotExist => true | _ => false end.

(** ** Package [path/filepath] (Unix) *)

Module filepath.

(** [strings.Split(s, "/")]: the components between the separators. *)
Fixpoint split (s : string) : list string :=
  match s with
  | EmptyString => [EmptyString]
  | String c s' =>
      if Ascii.eqb c "/" then EmptyString :: split s'
      else match split s' with
           | x :: xs => String c x :: xs
           | [] => [String c EmptyString]
           end
  end.

Definition IsAbs (path : string) : bool :=
  match path with String c _ => Ascii.eqb c "/" | EmptyString => false end.

(** One component of a path read left to right; [out] holds the components
    kept so far, the last one first.  An empty component and [.] are
    dropped; [..] removes the component before it, is kept at the start of
    a relative path and dropped at the start of a rooted one. *)
Definition step (rooted : bool) (out : list string) (c : string) : list string :=
  if decide (c = "" ∨ c = ".") then out
  else if decide (c = "..") then
    match out with
    | top :: out' =>
        if rooted then out'
        else if decide (top = "..") then c :: out else out'
    | [] => if rooted then [] else [c]
    end
  else c :: out.

Definition components (rooted : bool) (path : string) : list string :=
  rev (fold_left (step rooted) (split path) []).

(** [filepath.Clean]: the shortest path equivalent to [path] by purely
    lexical processing. *)
Definition Clean (path : string) : string :=
  if decide (path = "") then "."
  else
    let out := components (IsAbs path) path in
    if IsAbs path then String "/" (String.concat "/" out)
    else if decide (out = []) then "." else String.concat "/" out.

(** [filepath.Join]: the elements from the first non-empty one on, joined
    with the separator and cleaned; the empty string when all are empty. *)
Fixpoint Join (elem : list string) : string :=
  match elem with
  | [] => ""
  | e :: rest =>
      if decide (e = "") then Join rest else Clean (String.concat "/" elem)
  end.

End filepath.

(** ** Package [os]: the directory tree *)

Module os.

(** A file holds bytes; a directory maps the names of its entries to their
    nodes.  There are no links and no permissions. *)
Inductive node : Type :=
| File (data : list ascii)
| Dir (entries : gmap string node).

(** The file system: the tree under [/] and the working directory that
    relative paths start from. *)
Record FS : Type := mkFS { root : node; cwd : list string }.

(** The names from [/] down to the file a path denotes. *)
Definition resolve (fs : FS) (path : string) : list string :=
  rev (fold_left (filepath.step true) (filepath.split path)
         (if filepath.IsAbs path then [] else rev (cwd fs))).

(** The walk of the kernel along the names [p], from the node [n]. *)
Fixpoint walk (n : node) (p : list string) : error + node :=
  match p with
  | [] => inr n
  | x :: p' =>
      match n with
      | File _ => inl ErrNotDir
      | Dir es =>
          match es !! x with
          | None => inl ErrNotExist
          | Some c => walk c p'
          end
      end
  end.

(** [mkdir -p] along [p]: missing directories are created, a file in the
    way is an error. *)
Fixpoint mkdirs (n : node) (p : list string) : error + node :=
  match n with
  | File _ => inl ErrNotDir
  | Dir es =>
      match p with
      | [] => inr n
      | x :: p' =>
          match mkdirs (default (Dir ∅) (es !! x)) p' with
          | inl e => inl e
          | inr c => inr (Dir (<[x := c]> es))
          end
      end
  end.

(** [open(O_WRONLY|O_CREATE|O_TRUNC)] and write: the parent directory must
    exist, the file is created or its contents replaced. *)
Fixpoint store (n : node) (p : list string) (data : list ascii) : error + node :=
  match p with
  | [] => inl ErrIsDir
  | x :: p' =>
      match n with
      | File _ => inl ErrNotDir
      | Dir es =>
          match p' with
          | [] =>
              match es !! x with
              | Some (Dir _) => inl ErrIsDir
              | _ => inr (Dir (<[x := File data]> es))
              end
          | _ :: _ =>
              match es !! x with
              | None => inl ErrNotExist
              | Some c =>
                  match store c p' data with
                  | inl e => inl e
                  | inr c' => inr (Dir (<[x := c']> es))
                  end
              end
          end
      end
  end.

(** [unlink], then [rmdir]: a file or an empty directory is removed. *)
Fixpoint unlink (n : node) (p : list string) : error + node :=
  match p with
  | [] => inl ErrBusy
  | x :: p' =>
      match n with
      | File _ => inl ErrNotDir
      | Dir es =>
          match es !! x with
          | None => inl ErrNotExist
          | Some c =>
              match p' with
              | [] =>
                  match c with
                  | File _ => inr (Dir (delete x es))
                  | Dir es' =>
                      if decide (dom es' = ∅) then inr (Dir (delete x es))
                      else inl ErrNotEmpty
                  end
              | _ :: _ =>
                  match unlink c p' with
                  | inl e => inl e
                  | inr c' => inr (Dir (<[x := c']> es))
                  end
              end
          end
      end
  end.

(** Insertion sort of file names, bytewise: [ReadDir] returns the entries
    sorted by filename. *)
Fixpoint insert_name (x : string) (l : list string) : list string :=
  match l with
  | [] => [x]
  | y :: l' => if String.leb x y then x :: l else y :: insert_name x l'
  end.

Definition sort_names (l : list string) : list string :=
  foldr insert_name [] l.

(** The node a path denotes; the empty path denotes nothing. *)
Definition find (fs : FS) (path : string) : error + node :=
  if decide (path = "") then inl ErrNotExist
  else walk (root fs) (resolve fs path).

(** What [os.Stat] reports of a file: whether it is a directory. *)
Record FileInfo : Type := mkFileInfo { IsDir : bool }.

Definition Stat (fs : FS) (name : string) : error + FileInfo :=
  match find fs name with
  | inl e => inl e
  | inr (File _) => inr (mkFileInfo false)
  | inr (Dir _) => inr (mkFileInfo true)
  end.

Definition ReadFile (fs : FS) (name : string) : error + list ascii :=
  match find fs name with
  | inl e => inl e
  | inr (File data) => inr data
  | inr (Dir _) => inl ErrIsDir
  end.

(** [os.ReadDir]: the entries read, and the error that ended the reading.
    In this model a directory is read whole or not at all. *)
Definition ReadDir (fs : FS) (name : string) : list string * option error :=
  match find fs name with
  | inl e => ([], Some e)
  | inr (File _) => ([], Some ErrNotDir)
  | inr (Dir es) => (sort_names (elements (dom es)), None)
  end.

(** The operations that change the tree return the new file system. *)
Definition update (fs : FS) (name : string)
    (f : node → list string → error + node) : FS * option error :=
  if decide (name = "") then (fs, Some ErrNotExist)
  else match f (root fs) (resolve fs name) with
       | inl e => (fs, Some e)
       | inr n => (mkFS n (cwd fs), None)
       end.

Definition MkdirAll (fs : FS) (path : string) : FS * option error :=
  update fs path mkdirs.

Definition WriteFile (fs : FS) (name : string) (data : list ascii)
    : FS * option error :=
  update fs name (λ n p, store n p data).

Definition Remove (fs : FS) (name : string) : FS * option error :=
  update fs name unlink.

End os.

(** ** Package [encoding/json] *)

Module json.

#[local] Open Scope char_scope.
#[local] Open Scope list_scope.

(** A JSON document as a Go value: [nil], a [bool], a [json.Number] (the
    literal, as the record types of this repository hold numbers), a
    [string], a slice, and a struct or map as its fields in order. *)
Inductive value : Type :=
| Null
| Boolean (b : bool)
| Number (n : string)
| Str (s : string)
| Array (elems : list value)
| Object (fields : list (string * value)).

Definition code (c : ascii) : N := N_of_ascii c.

Definition between (lo hi : N) (c : ascii) : bool :=
  (lo <=? code c)%N && (code c <=? hi)%N.

Definition dquote : ascii := "034".
Definition newline : ascii := "010".
Definition tab : ascii := "009".

(** *** Number literals *)

Definition is_digit (c : ascii) : bool := between 48 57 c.

Fixpoint drop_digits (s : list ascii) : list ascii :=
  match s with
  | c :: s' => if is_digit c then drop_digits s' else s
  | [] => []
  end.

Definition is_nil {A} (l : list A) : bool :=
  match l with [] => true | _ => false end.

(** [isValidNumber]: the grammar of JSON numbers, as the encoder checks a
    [json.Number] before writing it.  After the integer part comes an
    optional fraction (a dot and digits), then an optional exponent, and
    nothing else. *)
Definition valid_exp (s : list ascii) : bool :=
  match s with
  | [] => true
  | [_] => false
  | e :: x :: s4 =>
      if Ascii.eqb e "e" || Ascii.eqb e "E" then
        if Ascii.eqb x "+" || Ascii.eqb x "-" then
          if is_nil s4 then false else is_nil (drop_digits s4)
        else is_nil (drop_digits (x :: s4))
      else false
  end.

Definition valid_frac (s : list ascii) : bool :=
  valid_exp
    match s with
    | c :: c1 :: s' =>
        if Ascii.eqb c "." && is_digit c1 then drop_digits s' else s
    | _ => s
    end.

Definition valid_unsigned (s : list ascii) : bool :=
  match s with
  | [] => false
  | c :: s1 =>
      if Ascii.eqb c "0" then valid_frac s1
      else if between 49 57 c then valid_frac (drop_digits s1)
      else false
  end.

Definition isValidNumber (n : list ascii) : bool :=
  match n with
  | [] => false
  | c :: s' => if Ascii.eqb c "-" then valid_unsigned s' else valid_unsigned n
  end.

(** *** UTF-8 *)

(** The size of the sequence a leading byte announces and the range its
    second byte must lie in ([utf8]'s [first] and [acceptRanges]). *)
Definition accept (b0 : ascii) : option (nat * N * N) :=
  if between 194 223 b0 then Some (2%nat, 128, 191)%N
  else if between 224 224 b0 then Some (3%nat, 160, 191)%N
  else if between 225 236 b0 then Some (3%nat, 128, 191)%N
  else if between 237 237 b0 then Some (3%nat, 128, 159)%N
  else if between 238 239 b0 then Some (3%nat, 128, 191)%N
  else if between 240 240 b0 then Some (4%nat, 144, 191)%N
  else if between 241 243 b0 then Some (4%nat, 128, 191)%N
  else if between 244 244 b0 then Some (4%nat, 128, 143)%N
  else None.

Definition cont (b : ascii) : bool := between 128 191 b.

(** [utf8.DecodeRune] at the head of [s], for a byte above 127: the size
    of the well-formed sequence there, [None] for an invalid byte (Go's
    [RuneError] of width 1). *)
Definition rune_len (s : list ascii) : option nat :=
  match s with
  | [] => None
  | b0 :: s1 =>
      match accept b0, s1 with
      | Some (2%nat, lo, hi), b1 :: _ =>
          if between lo hi b1 then Some 2%nat else None
      | Some (3%nat, lo, hi), b1 :: b2 :: _ =>
          if between lo hi b1 && cont b2 then Some 3%nat else None
      | Some (4%nat, lo, hi), b1 :: b2 :: b3 :: _ =>
          if between lo hi b1 && cont b2 && cont b3 then Some 4%nat else None
      | _, _ => None
      end
  end.

(** U+2028 and U+2029, the two runes above 127 the encoder escapes:
    they are the sequences E2 80 A8 and E2 80 A9. *)
Definition line_sep (b0 b1 b2 : ascii) : bool :=
  Ascii.eqb b0 "226" && Ascii.eqb b1 "128"
  && (Ascii.eqb b2 "168" || Ascii.eqb b2 "169").

Definition byte (n : N) : ascii := ascii_of_N n.

(** [utf8.EncodeRune]; a surrogate or a value past U+10FFFF is encoded as
    U+FFFD. *)
Definition encode_rune (r : N) : list ascii :=
  if (r <? 128)%N then [byte r]
  else if (r <? 2048)%N then [byte (192 + r / 64); byte (128 + r mod 64)]
  else if ((55296 <=? r) && (r <? 57344) || (1114111 <? r))%N
  then [byte 239; byte 191; byte 189]
  else if (r <? 65536)%N then
    [byte (224 + r / 4096); byte (128 + (r / 64) mod 64); byte (128 + r mod 64)]
  else
    [byte (240 + r / 262144); byte (128 + (r / 4096) mod 64);
     byte (128 + (r / 64) mod 64); byte (128 + r mod 64)].

(** *** Strings *)

Definition hex (n : N) : ascii :=
  nth (N.to_nat n) (list_ascii_of_string "0123456789abcdef") "0".

(** One byte below 128 inside a string literal, with [escapeHTML] set (as
    [Marshal] sets it). *)
Definition quote_byte (b : ascii) : list ascii :=
  if Ascii.eqb b dquote || Ascii.eqb b "\" then ["\"; b]
  else if Ascii.eqb b "008" then ["\"; "b"]
  else if Ascii.eqb b "012" then ["\"; "f"]
  else if Ascii.eqb b "010" then ["\"; "n"]
  else if Ascii.eqb b "013" then ["\"; "r"]
  else if Ascii.eqb b "009" then ["\"; "t"]
  else if (code b <? 32)%N || Ascii.eqb b "<" || Ascii.eqb b ">"
          || Ascii.eqb b "&"
  then ["\"; "u"; "0"; "0"; hex (code b / 16); hex (code b mod 16)]
  else [b].

Definition replacement : list ascii := ["\"; "u"; "f"; "f"; "f"; "d"].

(** The body of a string literal ([appendString] between the quotes):
    bytes below 128 by [quote_byte], a well-formed sequence copied, the two
    line separators escaped, an invalid byte replaced by [�]. *)
Fixpoint quote_body (s : list ascii) : list ascii :=
  match s with
  | [] => []
  | b0 :: s1 =>
      if (code b0 <? 128)%N then quote_byte b0 ++ quote_body s1
      else
        match rune_len s, s1 with
        | Some 2%nat, b1 :: s2 => b0 :: b1 :: quote_body s2
        | Some 3%nat, b1 :: b2 :: s3 =>
            if line_sep b0 b1 b2
            then ["\"; "u"; "2"; "0"; "2"; hex (code b2 mod 16)] ++ quote_body s3
            else b0 :: b1 :: b2 :: quote_body s3
        | Some 4%nat, b1 :: b2 :: b3 :: s4 =>
            b0 :: b1 :: b2 :: b3 :: quote_body s4
        | _, _ => replacement ++ quote_body s1
        end
  end.

Definition quote (s : string) : list ascii :=
  dquote :: quote_body (list_ascii_of_string s) ++ [dquote].

(** A Go string that holds well-formed UTF-8. *)
Fixpoint utf8_valid (s : list ascii) : bool :=
  match s with
  | [] => true
  | b0 :: s1 =>
      if (code b0 <? 128)%N then utf8_valid s1
      else
        match rune_len s, s1 with
        | Some 2%nat, _ :: s2 => utf8_valid s2
        | Some 3%nat, _ :: _ :: s3 => utf8_valid s3
        | Some 4%nat, _ :: _ :: _ :: s4 => utf8_valid s4
        | _, _ => false
        end
  end.

Definition ValidString (s : string) : bool :=
  utf8_valid (list_ascii_of_string s).

Definition hex_digit (c : ascii) : option N :=
  if between 48 57 c then Some (code c - 48)%N
  else if between 97 102 c then Some (code c - 87)%N
  else if between 65 70 c then Some (code c - 55)%N
  else None.

(** [getu4] after the [\u]: the value of four hexadecimal digits. *)
Definition hex4 (h1 h2 h3 h4 : ascii) : option N :=
  match hex_digit h1, hex_digit h2, hex_digit h3, hex_digit h4 with
  | Some a, Some b, Some c, Some d => Some (((a * 16 + b) * 16 + c) * 16 + d)%N
  | _, _, _, _ => None
  end.

Definition is_surrogate (r : N) : bool := ((55296 <=? r) && (r <? 57344))%N.

(** [utf16.DecodeRune]: the rune of a surrogate pair, U+FFFD for anything
    that is not one. *)
Definition decode_pair (r1 r2 : N) : N :=
  if ((55296 <=? r1) && (r1 <? 56320) && (56320 <=? r2) && (r2 <? 57344))%N
  then ((r1 - 55296) * 1024 + (r2 - 56320) + 65536)%N
  else 65533%N.

Definition simple_escape (c : ascii) : option ascii :=
  if Ascii.eqb c dquote || Ascii.eqb c "\" || Ascii.eqb c "/" then Some c
  else if Ascii.eqb c "b" then Some "008"
  else if Ascii.eqb c "f" then Some "012"
  else if Ascii.eqb c "n" then Some "010"
  else if Ascii.eqb c "r" then Some "013"
  else if Ascii.eqb c "t" then Some "009"
  else None.

Definition prepend (pre : list ascii) (r : option (list ascii * list ascii))
    : option (list ascii * list ascii) :=
  match r with
  | Some (bs, rest) => Some (pre ++ bs, rest)
  | None => None
  end.

(** A string literal read from after its opening quote: the string it
    denotes and the input after its closing quote.  A control character, an
    unknown escape and a missing closing quote are syntax errors; invalid
    UTF-8 and unpaired surrogates become U+FFFD ([unquote]). *)
Fixpoint unquote (s : list ascii) : option (list ascii * list ascii) :=
  match s with
  | [] => None
  | c :: s1 =>
      if Ascii.eqb c dquote then Some ([], s1)
      else if Ascii.eqb c "\" then
        match s1 with
        | [] => None
        | e :: s2 =>
            match simple_escape e with
            | Some x => prepend [x] (unquote s2)
            | None =>
                if Ascii.eqb e "u" then
                  match s2 with
                  | h1 :: h2 :: h3 :: h4 :: s6 =>
                      match hex4 h1 h2 h3 h4 with
                      | None => None
                      | Some r =>
                          if is_surrogate r then
                            match s6 with
                            | "\" :: "u" :: g1 :: g2 :: g3 :: g4 :: s12 =>
                                match hex4 g1 g2 g3 g4 with
                                | Some r2 =>
                                    if (decode_pair r r2 =? 65533)%N
                                    then prepend (encode_rune 65533) (unquote s6)
                                    else prepend (encode_rune (decode_pair r r2))
                                           (unquote s12)
                                | None => prepend (encode_rune 65533) (unquote s6)
                                end
                            | _ => prepend (encode_rune 65533) (unquote s6)
                            end
                          else prepend (encode_rune r) (unquote s6)
                      end
                  | _ => None
                  end
                else None
            end
        end
      else if (code c <? 32)%N then None
      else if (code c <? 128)%N then prepend [c] (unquote s1)
      else
        match rune_len s, s1 with
        | Some 2%nat, b1 :: s2 => prepend [c; b1] (unquote s2)
        | Some 3%nat, b1 :: b2 :: s3 => prepend [c; b1; b2] (unquote s3)
        | Some 4%nat, b1 :: b2 :: b3 :: s4 =>
            prepend [c; b1; b2; b3] (unquote s4)
        | _, _ => prepend (encode_rune 65533) (unquote s1)
        end
  end.

(** *** Encoding *)

(** The scanner accepts at most this many open arrays and objects. *)
Definition maxNestingDepth : nat := 10000.

Definition lit (s : string) : list ascii := list_ascii_of_string s.

(** A [json.Number] is written as it stands, the zero value as [0]; one
    that is no number is an error. *)
Definition number_literal (n : string) : error + list ascii :=
  let l := if decide (n = EmptyString) then lit "0" else lit n in
  if isValidNumber l then inr l else inl (ErrInvalidNumber n).

(** The results of a list of encodings: the first error, or all of them. *)
Fixpoint sequence {A} (l : list (error + A)) : error + list A :=
  match l with
  | [] => inr []
  | inl e :: _ => inl e
  | inr a :: l' =>
      match sequence l' with
      | inl e => inl e
      | inr r => inr (a :: r)
      end
  end.

Fixpoint join (sep : list ascii) (parts : list (list ascii)) : list ascii :=
  match parts with
  | [] => []
  | [p] => p
  | p :: ps => p ++ sep ++ join sep ps
  end.

(** [json.Marshal]: the compact encoding. *)
Fixpoint Marshal (v : value) : error + list ascii :=
  match v with
  | Null => inr (lit "null")
  | Boolean b => inr (lit (if b then "true" else "false"))
  | Number n => number_literal n
  | Str s => inr (quote s)
  | Array vs =>
      match sequence (map Marshal vs) with
      | inl e => inl e
      | inr items => inr ("[" :: join [","] items ++ ["]"])
      end
  | Object fs =>
      match sequence (map (λ kv, match kv with
                                 | (k, x) =>
                                     match Marshal x with
                                     | inl e => inl e
                                     | inr b => inr (quote k ++ ":" :: b)
                                     end
                                 end) fs) with
      | inl e => inl e
      | inr items => inr ("{" :: join [","] items ++ ["}"])
      end
  end.

Section Indent.
Variables prefix indent : list ascii.

(** The start of a line at depth [d]. *)
Definition line (d : nat) : list ascii :=
  newline :: prefix ++ concat (replicate d indent).

(** [json.Indent] of the encoding of [v], at depth [d]: each element of
    a non-empty array or object on a line of its own, one indent deeper;
    a space after each colon. *)
Fixpoint indented (d : nat) (v : value) : error + list ascii :=
  match v with
  | Null => inr (lit "null")
  | Boolean b => inr (lit (if b then "true" else "false"))
  | Number n => number_literal n
  | Str s => inr (quote s)
  | Array vs =>
      if (maxNestingDepth <=? d)%nat then inl ErrMaxDepth
      else
        match sequence (map (indented (S d)) vs) with
        | inl e => inl e
        | inr [] => inr (lit "[]")
        | inr items =>
            inr ("[" :: line (S d) ++ join ("," :: line (S d)) items
                     ++ line d ++ ["]"])
        end
  | Object fs =>
      if (maxNestingDepth <=? d)%nat then inl ErrMaxDepth
      else
        match sequence (map (λ kv, match kv with
                                   | (k, x) =>
                                       match indented (S d) x with
                                       | inl e => inl e
                                       | inr b => inr (quote k ++ ":" :: " " :: b)
                                       end
                                   end) fs) with
        | inl e => inl e
        | inr [] => inr (lit "{}")
        | inr items =>
            inr ("{" :: line (S d) ++ join ("," :: line (S d)) items
                     ++ line d ++ ["}"])
        end
  end.
End Indent.

(** [json.MarshalIndent]: [Marshal], then [Indent] of its result. *)
Definition MarshalIndent (v : value) (prefix indent : string)
    : error + list ascii :=
  match Marshal v with
  | inl e => inl e
  | inr _ => indented (lit prefix) (lit indent) 0 v
  end.

(** *** Decoding *)

Definition is_space (c : ascii) : bool :=
  Ascii.eqb c " " || Ascii.eqb c tab || Ascii.eqb c "013" || Ascii.eqb c newline.

Fixpoint skip_space (s : list ascii) : list ascii :=
  match s with
  | c :: s' => if is_space c then skip_space s' else s
  | [] => []
  end.

Fixpoint span_digits (s : list ascii) : list ascii * list ascii :=
  match s with
  | c :: s' =>
      if is_digit c
      then let r := span_digits s' in (c :: fst r, snd r)
      else ([], s)
  | [] => ([], [])
  end.

(** The digits a number needs at this place, and what follows them. *)
Definition digits1 (s : list ascii) : option (list ascii * list ascii) :=
  match span_digits s with
  | ([], _) => None
  | r => Some r
  end.

Definition scan_int (s : list ascii) : option (list ascii * list ascii) :=
  match s with
  | [] => None
  | c :: s1 =>
      if Ascii.eqb c "0" then Some ([c], s1)
      else if between 49 57 c
      then let r := span_digits s1 in Some (c :: fst r, snd r)
      else None
  end.

Definition scan_frac (s : list ascii) : option (list ascii * list ascii) :=
  match s with
  | c :: s1 =>
      if Ascii.eqb c "." then
        match digits1 s1 with
        | Some (ds, r) => Some (c :: ds, r)
        | None => None
        end
      else Some ([], s)
  | [] => Some ([], s)
  end.

Definition scan_exp (s : list ascii) : option (list ascii * list ascii) :=
  match s with
  | e :: s1 =>
      if Ascii.eqb e "e" || Ascii.eqb e "E" then
        match s1 with
        | x :: s2 =>
            if Ascii.eqb x "+" || Ascii.eqb x "-" then
              match digits1 s2 with
              | Some (ds, r) => Some (e :: x :: ds, r)
              | None => None
              end
            else
              match digits1 s1 with
              | Some (ds, r) => Some (e :: ds, r)
              | None => None
              end
        | [] => None
        end
      else Some ([], s)
  | [] => Some ([], s)
  end.

Definition scan_unsigned (s : list ascii) : option (list ascii * list ascii) :=
  match scan_int s with
  | None => None
  | Some (i, s1) =>
      match scan_frac s1 with
      | None => None
      | Some (f, s2) =>
          match scan_exp s2 with
          | None => None
          | Some (e, s3) => Some (i ++ f ++ e, s3)
          end
      end
  end.

(** A number literal at the head of the input, as the scanner reads it. *)
Definition scan_number (s : list ascii) : option (list ascii * list ascii) :=
  match s with
  | [] => None
  | c :: s' =>
      if Ascii.eqb c "-" then
        match scan_unsigned s' with
        | Some (l, r) => Some (c :: l, r)
        | None => None
        end
      else scan_unsigned s
  end.

Fixpoint strip_prefix (p s : list ascii) : option (list ascii) :=
  match p with
  | [] => Some s
  | c :: p' =>
      match s with
      | c' :: s' => if Ascii.eqb c c' then strip_prefix p' s' else None
      | [] => None
      end
  end.

Definition keyword (rest : string) (v : value) (s : list ascii)
    : option (value * list ascii) :=
  match strip_prefix (lit rest) s with
  | Some s' => Some (v, s')
  | None => None
  end.

Definition str (bs : list ascii) : string := string_of_list_ascii bs.

(** The value at the head of the input and the input after it.  [depth]
    counts the arrays and objects open around it; [fuel] bounds the calls
    and never runs out when it exceeds the length of the input. *)
Fixpoint parse_value (fuel depth : nat) (s : list ascii) {struct fuel}
    : option (value * list ascii) :=
  match fuel with
  | O => None
  | S fuel' =>
      match s with
      | [] => None
      | c :: s1 =>
          if Ascii.eqb c "{" then
            if (maxNestingDepth <=? depth)%nat then None
            else
              match skip_space s1 with
              | [] => None
              | c2 :: s2 =>
                  if Ascii.eqb c2 "}" then Some (Object [], s2)
                  else
                    match parse_members fuel' (S depth) (c2 :: s2) with
                    | Some (fs, s3) => Some (Object fs, s3)
                    | None => None
                    end
              end
          else if Ascii.eqb c "[" then
            if (maxNestingDepth <=? depth)%nat then None
            else
              match skip_space s1 with
              | [] => None
              | c2 :: s2 =>
                  if Ascii.eqb c2 "]" then Some (Array [], s2)
                  else
                    match parse_elements fuel' (S depth) (c2 :: s2) with
                    | Some (vs, s3) => Some (Array vs, s3)
                    | None => None
                    end
              end
          else if Ascii.eqb c dquote then
            match unquote s1 with
            | Some (bs, s2) => Some (Str (str bs), s2)
            | None => None
            end
          else if Ascii.eqb c "t" then keyword "rue" (Boolean true) s1
          else if Ascii.eqb c "f" then keyword "alse" (Boolean false) s1
          else if Ascii.eqb c "n" then keyword "ull" Null s1
          else
            match scan_number s with
            | Some (n, s2) => Some (Number (str n), s2)
            | None => None
            end
      end
  end

(** The elements of an array from its first one to the closing bracket. *)
with parse_elements (fuel depth : nat) (s : list ascii) {struct fuel}
    : option (list value * list ascii) :=
  match fuel with
  | O => None
  | S fuel' =>
      match parse_value fuel' depth s with
      | None => None
      | Some (v, s1) =>
          match skip_space s1 with
          | [] => None
          | c :: s2 =>
              if Ascii.eqb c "," then
                match parse_elements fuel' depth (skip_space s2) with
                | Some (vs, s3) => Some (v :: vs, s3)
                | None => None
                end
              else if Ascii.eqb c "]" then Some ([v], s2)
              else None
          end
      end
  end

(** The members of an object from its first key to the closing brace. *)
with parse_members (fuel depth : nat) (s : list ascii) {struct fuel}
    : option (list (string * value) * list ascii) :=
  match fuel with
  | O => None
  | S fuel' =>
      match s with
      | [] => None
      | q :: s0 =>
          if Ascii.eqb q dquote then
            match unquote s0 with
            | None => None
            | Some (k, s1) =>
                match skip_space s1 with
                | [] => None
                | c1 :: s2 =>
                    if Ascii.eqb c1 ":" then
                      match parse_value fuel' depth (skip_space s2) with
                      | None => None
                      | Some (v, s3) =>
                          match skip_space s3 with
                          | [] => None
                          | c :: s4 =>
                              if Ascii.eqb c "," then
                                match parse_members fuel' depth (skip_space s4) with
                                | Some (fs, s5) => Some ((str k, v) :: fs, s5)
                                | None => None
                                end
                              else if Ascii.eqb c "}" then Some ([(str k, v)], s4)
                              else None
                          end
                      end
                    else None
                end
            end
          else None
      end
  end.

(** [json.Unmarshal] into a destination that takes any document: the
    input is one value between optional white space. *)
Definition Unmarshal (data : list ascii) : error + value :=
  match parse_value (S (length data)) 0 (skip_space data) with
  | None => inl ErrSyntax
  | Some (v, rest) =>
      if is_nil (skip_space rest) then inr v else inl ErrSyntax
  end.

End json.

(** ** Package [sync], the driver and the world it runs in *)

(** A [sync.Mutex] is free or held. *)
Inductive Mutex : Type := Unlocked | Locked.

(** [type Driver struct]: the guard of the lock table, the lock table (a
    mutex per collection, by name) and the root directory. *)
Record Driver : Type := mkDriver {
  mutex : Mutex;
  mutexes : gmap string Mutex;
  dir : string
}.

(** A [*sync.Mutex] of the driver: [&d.mutex], or the mutex the table
    holds for a collection. *)
Inductive MutexRef : Type :=
| Guard
| OfCollection (collection : string).

(** What a call does that another goroutine or process could observe: the
    locks it takes and releases, and its calls into package [os]. *)
Inductive Event : Type :=
| EvLock (m : MutexRef)
| EvUnlock (m : MutexRef)
| EvStat (name : string)
| EvMkdirAll (path : string)
| EvWriteFile (name : string) (data : list ascii)
| EvReadFile (name : string)
| EvReadDir (name : string)
| EvRemove (name : string).

Definition is_lock_event (e : Event) : bool :=
  match e with EvLock _ | EvUnlock _ => true | _ => false end.

(** The state a call runs in: the driver, the file system, and the events
    so far, oldest first. *)
Record World : Type := mkWorld {
  driver : Driver;
  disk : os.FS;
  trace : list Event
}.

(** A call returns a result in a new world, or blocks for ever on a mutex
    that is held. *)
Inductive Outcome (A : Type) : Type :=
| Returns (a : A) (w : World)
| Blocks (w : World).
Arguments Returns {A} a w.
Arguments Blocks {A} w.

Definition M (A : Type) : Type := World → Outcome A.

#[export] Instance M_ret : MRet M := λ A a w, Returns a w.

#[export] Instance M_bind : MBind M := λ A B f m w,
  match m w with
  | Returns a w' => f a w'
  | Blocks w' => Blocks w'
  end.

Definition gets {A} (f : World → A) : M A := λ w, Returns (f w) w.

Definition modify (f : World → World) : M unit := λ w, Returns () (f w).

Definition emit (e : Event) : M unit :=
  modify (λ w, mkWorld (driver w) (disk w) (trace w ++ [e])).

(** A field of the driver. *)
Definition field {A} (f : Driver → A) : M A := gets (λ w, f (driver w)).

Definition held (d : Driver) (m : MutexRef) : Mutex :=
  match m with
  | Guard => mutex d
  | OfCollection c => default Unlocked (mutexes d !! c)
  end.

Definition set_mutex (m : MutexRef) (s : Mutex) (d : Driver) : Driver :=
  match m with
  | Guard => mkDriver s (mutexes d) (dir d)
  | OfCollection c => mkDriver (mutex d) (<[c := s]> (mutexes d)) (dir d)
  end.

(** [m.Lock()]: takes a free mutex; on a held one the caller waits. *)
Definition Lock (m : MutexRef) : M unit := λ w,
  match held (driver w) m with
  | Locked => Blocks w
  | Unlocked =>
      Returns () (mkWorld (set_mutex m Locked (driver w)) (disk w)
                    (trace w ++ [EvLock m]))
  end.

(** [m.Unlock()]. *)
Definition Unlock (m : MutexRef) : M unit := λ w,
  Returns () (mkWorld (set_mutex m Unlocked (driver w)) (disk w)
                (trace w ++ [EvUnlock m])).

(** [defer f()]: [f] runs when the body returns, whatever it returns. *)
Definition defer {A} (deferred : M unit) (body : M A) : M A :=
  a ← body; deferred;; mret a.

(** The calls into package [os], on the disk of the world. *)
Definition os_read {A} (e : Event) (f : os.FS → A) : M A :=
  emit e;; gets (λ w, f (disk w)).

Definition os_write (e : Event) (f : os.FS → os.FS * option error)
    : M (option error) :=
  emit e;;
  r ← gets (λ w, f (disk w));
  modify (λ w, mkWorld (driver w) r.1 (trace w));;
  mret r.2.

Definition os_Stat (name : string) : M (error + os.FileInfo) :=
  os_read (EvStat name) (λ fs, os.Stat fs name).

Definition os_ReadFile (name : string) : M (error + list ascii) :=
  os_read (EvReadFile name) (λ fs, os.ReadFile fs name).

Definition os_ReadDir (name : string) : M (list string * option error) :=
  os_read (EvReadDir name) (λ fs, os.ReadDir fs name).

Definition os_MkdirAll (path : string) : M (option error) :=
  os_write (EvMkdirAll path) (λ fs, os.MkdirAll fs path).

Definition os_WriteFile (name : string) (data : list ascii) : M (option error) :=
  os_write (EvWriteFile name data) (λ fs, os.WriteFile fs name data).

Definition os_Remove (name : string) : M (option error) :=
  os_write (EvRemove name) (λ fs, os.Remove fs name).

(** ** The driver *)

(** [New] initializes a new database at the specified directory: the
    driver, and the error of creating the directory when it was missing. *)
Definition New (dir : string) (fs : os.FS) : World * option error :=
  let dir := filepath.Clean dir in
  let driver := mkDriver Unlocked ∅ dir in
  match os.Stat fs dir with
  | inl _ =>
      let r := os.MkdirAll fs dir in
      (mkWorld driver r.1 [EvStat dir; EvMkdirAll dir], r.2)
  | inr _ => (mkWorld driver fs [EvStat dir], None)
  end.

(** [getOrCreateMutex] ensures thread safety for a specific collection. *)
Definition getOrCreateMutex (collection : string) : M MutexRef :=
  Lock Guard;;
  defer (Unlock Guard) (
    ms ← field mutexes;
    match ms !! collection with
    | Some _ => mret (OfCollection collection)
    | None =>
        modify (λ w, mkWorld (set_mutex (OfCollection collection) Unlocked
                                (driver w)) (disk w) (trace w));;
        mret (OfCollection collection)
    end).

(** [Write] saves a JSON file into a collection. *)
Definition Write (collection resource : string) (v : json.value)
    : M (option error) :=
  if decide (collection = "" ∨ resource = "") then
    mret (Some (Errorf "missing collection or resource"))
  else
    mutex ← getOrCreateMutex collection;
    Lock mutex;;
    defer (Unlock mutex) (
      d ← field dir;
      let dir := filepath.Join [d; collection] in
      let fnlPath := filepath.Join [dir; resource +:+ ".json"] in
      err ← os_MkdirAll dir;
      match err with
      | Some err => mret (Some err)
      | None =>
          match json.MarshalIndent v "" (String json.tab "") with
          | inl err => mret (Some err)
          | inr b => os_WriteFile fnlPath b
          end
      end).

(** [Read] reads a specific record from a collection; the value is what
    the destination holds when the error is [nil]. *)
Definition Read (collection resource : string) : M (error + json.value) :=
  d ← field dir;
  let path := filepath.Join [d; collection; resource +:+ ".json"] in
  st ← os_Stat path;
  match st with
  | inl err => mret (inl err)
  | inr _ =>
      r ← os_ReadFile path;
      match r with
      | inl err => mret (inl err)
      | inr b => mret (json.Unmarshal b)
      end
  end.

(** The loop of [ReadAll] over the entries of the directory. *)
Fixpoint readRecords (dir : string) (files : list string)
    (records : list (list ascii)) : M (list (list ascii) * option error) :=
  match files with
  | [] => mret (records, None)
  | file :: files' =>
      r ← os_ReadFile (filepath.Join [dir; file]);
      match r with
      | inl err => mret ([], Some err)
      | inr b => readRecords dir files' (records ++ [b])
      end
  end.

(** [ReadAll] reads all files in a collection. *)
Definition ReadAll (collection : string)
    : M (list (list ascii) * option error) :=
  d ← field dir;
  let dir := filepath.Join [d; collection] in
  st ← os_Stat dir;
  match st with
  | inl err => mret ([], Some err)
  | inr _ =>
      r ← os_ReadDir dir;
      readRecords dir r.1 []
  end.

(** [Delete] removes a specific record. *)
Definition Delete (collection resource : string) : M (option error) :=
  d ← field dir;
  let path := filepath.Join [d; collection; resource +:+ ".json"] in
  mutex ← getOrCreateMutex collection;
  Lock mutex;;
  defer (Unlock mutex) (os_Remove path).

(** ** What the properties are stated with *)

(** The path of a record, as [Read] and [Delete] compute it. *)
Definition recordPath (d : Driver) (collection resource : string) : string :=
  filepath.Join [dir d; collection; resource +:+ ".json"].

(** The path of the directory of a collection. *)
Definition collectionPath (d : Driver) (collection : string) : string :=
  filepath.Join [dir d; collection].

(** The world a call leaves, and the events it added to the trace. *)
Definition after {A} (m : M A) (w : World) : World :=
  match m w with Returns _ w' => w' | Blocks w' => w' end.

Definition events {A} (m : M A) (w : World) : list Event :=
  drop (length (trace w)) (trace (after m w)).

(** A value that decodes to itself: its strings and keys hold well-formed
    UTF-8 and none of its numbers is the zero value of [json.Number] (the
    empty literal, which is written as [0]). *)
Fixpoint Lossless (v : json.value) : bool :=
  match v with
  | json.Null | json.Boolean _ => true
  | json.Number n => negb (bool_decide (n = ""))
  | json.Str s => json.ValidString s
  | json.Array vs => forallb Lossless vs
  | json.Object fs =>
      forallb (λ kv, json.ValidString kv.1 && Lossless kv.2) fs
  end.

(** The components [Clean] keeps: none is empty or [.], and a rooted path
    keeps no [..]. *)
Definition kept (rooted : bool) (x : string) : Prop :=
  x ≠ "" ∧ x ≠ "." ∧ (rooted = true → x ≠ "..").

(** A plain name: one path component that [Clean] keeps, so not empty, not
    [.] or [..], and without a slash.  A resource id without a slash gives
    the plain file name [<resource>.json]. *)
Definition plain (x : string) : Prop :=
  x ≠ "" ∧ x ≠ "." ∧ x ≠ ".." ∧ filepath.split x = [x].

(** What may follow a value in a document that [MarshalIndent] wrote: the
    end of the input, a comma or a new line. *)
Definition ends_value (rest : list ascii) : Prop :=
  match rest with
  | [] => True
  | c :: _ => c = ","%char ∨ c = json.newline
  end.

(** What ends a number literal: anything but a digit, a dot or an
    exponent mark. *)
Definition ends_number (rest : list ascii) : bool :=
  match rest with
  | [] => true
  | c :: _ =>
      negb (json.is_digit c || Ascii.eqb c "." || Ascii.eqb c "e"
            || Ascii.eqb c "E")
  end.

(** What a value starts with: no white space and no closing bracket. *)
Definition starts_value (out : list ascii) : Prop :=
  match out with
  | [] => False
  | c :: _ =>
      json.is_space c = false ∧ Ascii.eqb c "]" = false
      ∧ Ascii.eqb c "}" = false
  end.

(** [Write] indents with one tab and no prefix. *)
Definition indentedTab : nat → json.value → error + list ascii :=
  json.indented [] [json.tab].

Definition lineTab : nat → list ascii := json.line [] [json.tab].

(** The decoder reads [v] back from what [MarshalIndent] wrote for it at
    depth [d], whatever follows, given fuel for the bytes written. *)
Definition decodes (v : json.value) : Prop :=
  ∀ d out fuel rest,
    Lossless v = true → indentedTab d v = inr out →
    (length out ≤ fuel)%nat → ends_value rest →
    json.parse_value fuel d (out ++ rest)%list = Some (v, rest).

(** A world with a file system and no driver yet, and the tab that
    [Write] indents with. *)
Definition emptyDisk : os.FS := os.mkFS (os.Dir ∅) [].

(** ** The records of [main.go] *)

(** [type Address struct] and [type User struct]; a [json.Number] is the
    literal it holds.  The field [Address] of [User] is [Addr] here. *)
Record Address : Type := mkAddress {
  City : string;
  State : string;
  Country : string;
  Pincode : string
}.

Record User : Type := mkUser {
  Name : string;
  Age : string;
  Contact : string;
  Company : string;
  Addr : Address
}.

(** A record as the document its field tags describe. *)
Definition addressValue (a : Address) : json.value :=
  json.Object [("city", json.Str (City a)); ("state", json.Str (State a));
               ("country", json.Str (Country a));
               ("pincode", json.Number (Pincode a))].

Definition userValue (u : User) : json.value :=
  json.Object [("name", json.Str (Name u)); ("age", json.Number (Age u));
               ("contact", json.Str (Contact u));
               ("company", json.Str (Company u));
               ("address", addressValue (Addr u))].

(** The [employees] of [main]. *)
Definition employees : list User :=
  [ mkUser "John Doe" "23" "9876543210" "Tech Solutions"
      (mkAddress "Bangalore" "Karnataka" "India" "560001");
    mkUser "Alice Smith" "28" "9876543211" "Cloud Systems"
      (mkAddress "Mumbai" "Maharashtra" "India" "400001");
    mkUser "Rakshit" "28" "9543211" "Cloud Systems"
      (mkAddress "Mumbai" "Maharashtra" "India" "400001") ].

Definition john : json.value :=
  userValue (mkUser "John Doe" "23" "9876543210" "Tech Solutions"
               (mkAddress "Bangalore" "Karnataka" "India" "560001")).

(** The store of [main]: [New("./data")] in an empty file system. *)
Definition dataStore : World := (New "./data" emptyDisk).1.

(** The loop of [main] that writes each employee under its name. *)
Fixpoint writeEach (values : list User) : M unit :=
  match values with
  | [] => mret ()
  | value :: rest =>
      Write "users" (Name value) (userValue value);; writeEach rest
  end.

(** [main], started in the file system [fs]: the store is made, the
    employees are written, Alice Smith is deleted, and the remaining
    records are read and decoded.  What [main] prints is left out; the
    result is what it decoded, in the order read. *)
Definition main (fs : os.FS) : Outcome (list (error + json.value)) :=
  let (w, err) := New "./data" fs in
  match err with
  | Some _ => Returns [] w
  | None =>
      (writeEach employees;;
       Delete "users" "Alice Smith";;
       r ← ReadAll "users";
       mret (map json.Unmarshal r.1)) w
  end.

(** Bytes typed with ['] for the double quote, [~] for the tab and [|] for
    the new line. *)
Definition typed (s : string) : list ascii :=
  map (λ c, if Ascii.eqb c "'" then json.dquote
            else if Ascii.eqb c "~" then json.tab
            else if Ascii.eqb c "|" then json.newline
            else c)
    (json.lit s).

(** The store after [Write("users", "John Doe", john)], and a store whose
    collection [users] holds a file that is no JSON document. *)
Definition johnStore : World := after (Write "users" "John Doe" john) dataStore.


(** The store after the second record of [main] that stays, a store whose
    collection [users] holds a directory beside a record, and the entries
    of a directory. *)
Definition rakshit : json.value :=
  userValue (mkUser "Rakshit" "28" "9543211" "Cloud Systems"
               (mkAddress "Mumbai" "Maharashtra" "India" "400001")).

Definition twoStore : World := after (Write "users" "Rakshit" rakshit) johnStore.


Definition entries (fs : os.FS) (path : string) : gmap string os.node :=
  match os.find fs path with
  | inr (os.Dir es) => es
  | _ => ∅
  end.

Definition encoded (v : json.value) : list ascii :=
  match json.MarshalIndent v "" (String json.tab "") with
  | inr b => b
  | inl _ => []
  end.

(** ** Proof steps *)

(** The monad of the calls, unfolded. *)
Ltac unfold_M :=
  unfold os_Stat, os_ReadFile, os_ReadDir, os_MkdirAll, os_WriteFile, os_Remove,
    os_read, os_write, defer, field, emit, gets, modify,
    mbind, M_bind, mret, M_ret in *.

(** The cases of the length of a rune, for a rune that keeps its length
    when the bytes after it change. *)
Ltac rune_len_cases s :=
  unfold json.rune_len;
  destruct (json.accept _) as [[[[|[|[|[|[|?]]]]] ?] ?]|];
  solve [ done
        | by destruct (json.between _ _ _)
        | by destruct (_ && _)
        | destruct s as [|? [|? ?]]; try done; by destruct (_ && _) ].

(** * Properties *)

#[local] Open Scope list_scope.

(** ** Paths *)

Lemma append_cons c s t : String c s +:+ t = String c (s +:+ t).
Proof. reflexivity. Qed.

Lemma append_assoc s t u : (s +:+ t) +:+ u = s +:+ (t +:+ u).
Proof.
  induction s as [|c s IH]; [reflexivity|].
  by rewrite !append_cons, IH.
Qed.

Lemma split_nonempty s : filepath.split s ≠ [].
Proof.
  destruct s as [|c s]; simpl; [done|].
  destruct (Ascii.eqb c "/"); [done|].
  by destruct (filepath.split s).
Qed.

Lemma split_app a b :
  filepath.split (a +:+ String "/" b) = filepath.split a ++ filepath.split b.
Proof.
  induction a as [|c a IH]; [reflexivity|].
  rewrite append_cons. simpl.
  destruct (Ascii.eqb c "/"); [by rewrite IH|].
  rewrite IH. pose proof (split_nonempty a).
  by destruct (filepath.split a).
Qed.

(** A component of a path holds no separator. *)
Lemma split_components s :
  Forall (λ c, filepath.split c = [c]) (filepath.split s).
Proof.
  induction s as [|c s IH]; simpl; [by repeat constructor|].
  destruct (Ascii.eqb c "/") eqn:Hc; [by constructor|].
  destruct (filepath.split s) as [|x xs]; [by repeat constructor; simpl; rewrite Hc|].
  inversion IH as [|? ? Hx Hxs]; subst. constructor; [|done].
  simpl. by rewrite Hc, Hx.
Qed.

Lemma split_concat comps :
  comps ≠ [] → Forall (λ c, filepath.split c = [c]) comps →
  filepath.split (String.concat "/" comps) = comps.
Proof.
  induction comps as [|x [|y l] IH]; intros Hne Hall; [done| |].
  - by inversion Hall.
  - inversion Hall as [|? ? Hx Hl]; subst.
    change (String.concat "/" (x :: y :: l))
      with (x +:+ String "/" (String.concat "/" (y :: l))).
    rewrite split_app, Hx, IH; done.
Qed.

Lemma step_kept r acc c :
  Forall (kept r) acc → Forall (kept r) (filepath.step r acc c).
Proof.
  intros Hacc. unfold filepath.step.
  destruct (decide (c = "" ∨ c = ".")) as [|Hc]; [done|].
  destruct (decide (c = "..")) as [->|Hdd].
  - destruct acc as [|top acc]; [destruct r; repeat constructor; done|].
    inversion Hacc; subst. destruct r; [done|].
    destruct (decide (top = "..")); [|done].
    constructor; [|done]. repeat split; done.
  - constructor; [|done]. unfold kept. naive_solver.
Qed.

Lemma fold_step_kept r cs acc :
  Forall (kept r) acc → Forall (kept r) (fold_left (filepath.step r) cs acc).
Proof.
  revert acc. induction cs as [|c cs IH]; intros acc Hacc; [done|].
  simpl. by apply IH, step_kept.
Qed.

(** [step] only keeps components it was given. *)
Lemma step_Forall (Q : string → Prop) r acc c :
  Forall Q acc → Q c → Forall Q (filepath.step r acc c).
Proof.
  intros Hacc Hc. unfold filepath.step.
  repeat case_decide; try done; try (by constructor).
  - destruct acc as [|top acc]; [destruct r; repeat constructor; done|].
    inversion Hacc; subst. destruct r; [done|].
    case_decide; [by constructor|done].
Qed.

Lemma fold_step_Forall (Q : string → Prop) r cs acc :
  Forall Q cs → Forall Q acc → Forall Q (fold_left (filepath.step r) cs acc).
Proof.
  revert acc. induction cs as [|c cs IH]; intros acc Hcs Hacc; [done|].
  inversion Hcs; subst. simpl. apply IH; [done|]. by apply step_Forall.
Qed.

(** Reading the kept components again gives what one more component
    gives: cleaning a path and extending it commute. *)
Lemma step_rev r r' init acc c :
  Forall (kept r) acc →
  (r = true → r' = true ∧ init = []) →
  fold_left (filepath.step r') (rev (filepath.step r acc c)) init
  = filepath.step r' (fold_left (filepath.step r') (rev acc) init) c.
Proof.
  intros Hacc Hr. unfold filepath.step at 2.
  destruct (decide (c = "" ∨ c = ".")) as [Hblank|Hc].
  { unfold filepath.step at 2. by rewrite decide_True. }
  destruct (decide (c = "..")) as [->|Hdd].
  - destruct acc as [|top acc].
    + destruct r.
      * destruct Hr as [-> ->]; [done|]. reflexivity.
      * reflexivity.
    + inversion Hacc as [|? ? (Ht1 & Ht2 & Ht3) Hacc']; subst.
      assert (∀ X, filepath.step r' X top = top :: X
                   ∨ (r = false ∧ top = "..")) as Hpush.
      { intros X. destruct (decide (top = "..")) as [->|Htop].
        - right. split; [|done]. destruct r; [by specialize (Ht3 eq_refl)|done].
        - left. unfold filepath.step.
          rewrite decide_False by (by intros [|]). by rewrite decide_False. }
      assert (∀ X, top ≠ ".." → filepath.step r' (top :: X) ".." = X) as Hpop.
      { intros X Htop. unfold filepath.step. rewrite decide_False by (by intros [|]).
        rewrite decide_True by done. destruct r'; [done|].
        by rewrite decide_False. }
      destruct r.
      * simpl rev. rewrite fold_left_app. simpl.
        destruct (Hpush (fold_left (filepath.step r') (rev acc) init))
          as [->|[? _]]; [|done].
        rewrite Hpop; [done|]. by apply Ht3.
      * destruct (decide (top = "..")) as [->|Htop].
        -- change (rev (".." :: ".." :: acc)) with (rev (".." :: acc) ++ [".."]).
           by rewrite fold_left_app.
        -- simpl rev. rewrite fold_left_app. simpl.
           destruct (Hpush (fold_left (filepath.step r') (rev acc) init))
             as [->|[_ ?]]; [|done].
           by rewrite Hpop.
  - simpl rev. by rewrite fold_left_app.
Qed.

Lemma fold_components r r' init cs acc :
  Forall (kept r) acc →
  (r = true → r' = true ∧ init = []) →
  fold_left (filepath.step r') cs (fold_left (filepath.step r') (rev acc) init)
  = fold_left (filepath.step r') (rev (fold_left (filepath.step r) cs acc)) init.
Proof.
  intros Hacc Hr. revert acc Hacc.
  induction cs as [|c cs IH]; intros acc Hacc; [done|].
  simpl. rewrite <- IH by by apply step_kept.
  by rewrite step_rev.
Qed.

Lemma components_fold r r' init p :
  (r = true → r' = true ∧ init = []) →
  fold_left (filepath.step r') (filepath.components r p) init
  = fold_left (filepath.step r') (filepath.split p) init.
Proof.
  intros Hr. unfold filepath.components.
  by rewrite <- fold_components.
Qed.

Lemma Forall_rev {A} (P : A → Prop) l : Forall P l → Forall P (rev l).
Proof.
  induction 1 as [|x l Hx Hl IH]; simpl; [done|].
  apply Forall_app. by repeat constructor.
Qed.

Lemma components_kept r p : Forall (kept r) (filepath.components r p).
Proof. by apply Forall_rev, fold_step_kept. Qed.

Lemma components_split r p :
  Forall (λ c, filepath.split c = [c]) (filepath.components r p).
Proof.
  apply Forall_rev, fold_step_Forall; [apply split_components|done].
Qed.

(** A cleaned path reads as the path it was made from, both for [Clean]
    itself and for the kernel that resolves it. *)
Lemma Clean_fold p r' init :
  p ≠ "" →
  (filepath.IsAbs p = true → r' = true ∧ init = []) →
  fold_left (filepath.step r') (filepath.split (filepath.Clean p)) init
  = fold_left (filepath.step r') (filepath.split p) init.
Proof.
  intros Hp Hr. unfold filepath.Clean. rewrite decide_False by done.
  pose proof (components_fold (filepath.IsAbs p) r' init p Hr) as Hfold.
  pose proof (components_split (filepath.IsAbs p) p) as Hsplit.
  destruct (filepath.components (filepath.IsAbs p) p) as [|x out] eqn:Hout.
  - destruct (filepath.IsAbs p); simpl in *; by rewrite <- Hfold.
  - destruct (filepath.IsAbs p).
    + change (filepath.split (String "/" (String.concat "/" (x :: out))))
        with ("" :: filepath.split (String.concat "/" (x :: out))).
      rewrite split_concat by done. by rewrite <- Hfold.
    + rewrite decide_False by done. rewrite split_concat by done. done.
Qed.

Lemma concat_head x out :
  x ≠ "" → filepath.split x = [x] →
  String.concat "/" (x :: out) ≠ "" ∧
  filepath.IsAbs (String.concat "/" (x :: out)) = false.
Proof.
  intros Hx Hsplit. destruct x as [|c x]; [done|].
  assert (Ascii.eqb c "/" = false) as Hc.
  { simpl in Hsplit. destruct (Ascii.eqb c "/"); [|done].
    by destruct (filepath.split x). }
  destruct out; simpl; by rewrite ?append_cons.
Qed.

Lemma Clean_nonempty p : filepath.Clean p ≠ "".
Proof.
  unfold filepath.Clean. case_decide; [done|].
  pose proof (components_kept (filepath.IsAbs p) p) as Hk.
  pose proof (components_split (filepath.IsAbs p) p) as Hs.
  destruct (filepath.IsAbs p); [done|]. case_decide; [done|].
  destruct (filepath.components false p) as [|x out]; [done|].
  inversion Hk as [|? ? (? & _)]; inversion Hs; subst.
  by apply concat_head.
Qed.

Lemma IsAbs_Clean p : p ≠ "" → filepath.IsAbs (filepath.Clean p) = filepath.IsAbs p.
Proof.
  intros Hp. unfold filepath.Clean. rewrite decide_False by done.
  pose proof (components_kept (filepath.IsAbs p) p) as Hk.
  pose proof (components_split (filepath.IsAbs p) p) as Hs.
  destruct (filepath.IsAbs p); [done|]. case_decide; [done|].
  destruct (filepath.components false p) as [|x out]; [done|].
  inversion Hk as [|? ? (? & _)]; inversion Hs; subst.
  by apply concat_head.
Qed.

Lemma IsAbs_app u s : u ≠ "" → filepath.IsAbs (u +:+ s) = filepath.IsAbs u.
Proof. by destruct u. Qed.

Lemma append_nonempty u s : u ≠ "" → u +:+ s ≠ "".
Proof. by destruct u. Qed.

(** Cleaning a prefix first changes nothing. *)
Lemma Clean_app_Clean p x :
  p ≠ "" →
  filepath.Clean (filepath.Clean p +:+ "/" +:+ x)
  = filepath.Clean (p +:+ "/" +:+ x).
Proof.
  intros Hp. pose proof (Clean_nonempty p) as Hc.
  change ("/" +:+ x) with (String "/" x).
  unfold filepath.Clean at 1 3.
  rewrite (decide_False (P := filepath.Clean p +:+ String "/" x = ""))
    by by apply append_nonempty.
  rewrite (decide_False (P := p +:+ String "/" x = ""))
    by by apply append_nonempty.
  rewrite !IsAbs_app, IsAbs_Clean by done.
  unfold filepath.components. rewrite !split_app, !fold_left_app.
  rewrite Clean_fold; [done..|]. by intros ->.
Qed.

(** [Write] joins the directory of the collection with the file name;
    [Read] and [Delete] join all three elements at once: one path. *)
Lemma Join_nest a b x :
  x ≠ "" → filepath.Join [filepath.Join [a; b]; x] = filepath.Join [a; b; x].
Proof.
  intros Hx. destruct (decide (a = "")) as [->|Ha].
  - destruct (decide (b = "")) as [->|Hb].
    + simpl. by rewrite !decide_False.
    + simpl. rewrite !(decide_False (P := b = "")) by done.
      rewrite decide_False by apply Clean_nonempty.
      by rewrite Clean_app_Clean.
  - simpl. rewrite !(decide_False (P := a = "")) by done.
    rewrite decide_False by apply Clean_nonempty.
    rewrite Clean_app_Clean by by apply append_nonempty.
    by rewrite append_assoc.
Qed.

(** The kernel reads a cleaned path as it reads the path itself. *)
Lemma resolve_Clean fs p :
  p ≠ "" → os.resolve fs (filepath.Clean p) = os.resolve fs p.
Proof.
  intros Hp. unfold os.resolve. rewrite IsAbs_Clean by done.
  rewrite Clean_fold; [done..|]. by intros ->.
Qed.

Lemma step_plain r out x : plain x → filepath.step r out x = x :: out.
Proof.
  intros (? & ? & ? & _). unfold filepath.step.
  rewrite decide_False by by intros [|]. by rewrite decide_False.
Qed.

Lemma resolve_app fs p x :
  p ≠ "" → plain x →
  os.resolve fs (p +:+ String "/" x) = os.resolve fs p ++ [x].
Proof.
  intros Hp Hx. unfold os.resolve.
  rewrite IsAbs_app, split_app, fold_left_app by done.
  pose proof Hx as (_ & _ & _ & ->). cbn [fold_left].
  by rewrite step_plain.
Qed.

Lemma plain_relative x : plain x → x ≠ "" ∧ filepath.IsAbs x = false.
Proof.
  intros (Hx & _ & _ & Hs). split; [done|].
  by destruct (concat_head x [] Hx Hs).
Qed.

Lemma resolve_empty fs : os.resolve fs "" = os.cwd fs.
Proof. unfold os.resolve. simpl. apply rev_involutive. Qed.

Lemma resolve_plain fs x : plain x → os.resolve fs x = os.cwd fs ++ [x].
Proof.
  intros Hx. unfold os.resolve.
  destruct (plain_relative x Hx) as [_ ->].
  pose proof Hx as (_ & _ & _ & ->). cbn [fold_left].
  rewrite step_plain by done. simpl. by rewrite rev_involutive.
Qed.

(** With plain names the record is the entry [<resource>.json] of the
    entry [<collection>] of the root directory of the store. *)
Lemma resolve_Join fs d c x :
  plain c → plain x →
  os.resolve fs (filepath.Join [d; c]) = os.resolve fs d ++ [c]
  ∧ os.resolve fs (filepath.Join [d; c; x]) = os.resolve fs d ++ [c; x].
Proof.
  intros Hc Hx. destruct (plain_relative c Hc) as [Hne _].
  destruct (decide (d = "")) as [->|Hd].
  - unfold filepath.Join. rewrite !(decide_True (P := "" = "")) by done.
    rewrite !(decide_False (P := c = "")) by done. cbn [String.concat].
    rewrite resolve_Clean by done.
    rewrite resolve_Clean by (by apply append_nonempty).
    rewrite resolve_empty.
    split; [by apply resolve_plain|].
    change (c +:+ "/" +:+ x) with (c +:+ String "/" x).
    rewrite resolve_app, resolve_plain by done. by rewrite <- app_assoc.
  - unfold filepath.Join. rewrite !decide_False by done.
    rewrite !resolve_Clean by (by apply append_nonempty).
    cbn [String.concat].
    split; [by apply resolve_app|].
    change ("/" +:+ c +:+ "/" +:+ x) with (String "/" (c +:+ String "/" x)).
    change (d +:+ String "/" (c +:+ String "/" x))
      with (d +:+ (String "/" c +:+ String "/" x)).
    rewrite <- append_assoc.
    rewrite resolve_app; [|by apply append_nonempty|done].
    rewrite resolve_app by done. by rewrite <- app_assoc.
Qed.

Lemma split_plain_app a b :
  filepath.split a = [a] → filepath.split b = [b] →
  filepath.split (a +:+ b) = [a +:+ b].
Proof.
  intros Ha Hb. induction a as [|ch a IH]; [done|].
  rewrite append_cons. simpl in *.
  destruct (Ascii.eqb ch "/"); [done|].
  destruct (filepath.split a) as [|y ys] eqn:Hs; [by destruct (split_nonempty a)|].
  assert (y = a ∧ ys = []) as [-> ->] by (by inversion Ha).
  by rewrite IH.
Qed.

Lemma plain_json r : filepath.split r = [r] → plain (r +:+ ".json").
Proof.
  intros Hr. assert (∀ s, s +:+ ".json" ≠ "") as Hne by (by intros []).
  split; [apply Hne|]. split; [|split].
  - destruct r as [|ch r]; [done|]. rewrite append_cons.
    intros [= _ H]. by apply Hne in H.
  - destruct r as [|ch [|ch' r]]; [done..|]. rewrite !append_cons.
    intros [= _ _ H]. by apply Hne in H.
  - by apply split_plain_app.
Qed.

(** ** The directory tree *)

Lemma walk_cons es x p :
  os.walk (os.Dir es) (x :: p)
  = match es !! x with None => inl ErrNotExist | Some c => os.walk c p end.
Proof. reflexivity. Qed.

Lemma store_cons es x y p data :
  os.store (os.Dir es) (x :: y :: p) data
  = match es !! x with
    | None => inl ErrNotExist
    | Some c =>
        match os.store c (y :: p) data with
        | inl e => inl e
        | inr c' => inr (os.Dir (<[x := c']> es))
        end
    end.
Proof. reflexivity. Qed.

Lemma unlink_cons es x y p :
  os.unlink (os.Dir es) (x :: y :: p)
  = match es !! x with
    | None => inl ErrNotExist
    | Some c =>
        match os.unlink c (y :: p) with
        | inl e => inl e
        | inr c' => inr (os.Dir (<[x := c']> es))
        end
    end.
Proof. unfold os.unlink at 1. by destruct (es !! x). Qed.

(** A file that was written is there, with the bytes written. *)
Lemma store_walk n p data n' :
  os.store n p data = inr n' → os.walk n' p = inr (os.File data).
Proof.
  revert n n'. induction p as [|x p IH]; intros n n' H; [done|].
  destruct n as [|es]; [done|]. simpl in H.
  destruct p as [|y p].
  - assert (n' = os.Dir (<[x := os.File data]> es)) as ->.
    { destruct (es !! x) as [[]|]; by inversion H. }
    simpl. by rewrite lookup_insert_eq.
  - destruct (es !! x) as [c|] eqn:Hx; [|done].
    destruct (os.store c (y :: p) data) as [|c'] eqn:Hc; [done|].
    inversion H; subst. rewrite walk_cons, lookup_insert_eq.
    by apply (IH c).
Qed.

(** Writing the same bytes again changes nothing. *)
Lemma store_idem n p data n' :
  os.store n p data = inr n' → os.store n' p data = inr n'.
Proof.
  revert n n'. induction p as [|x p IH]; intros n n' H; [done|].
  destruct n as [|es]; [done|]. simpl in H.
  destruct p as [|y p].
  - assert (n' = os.Dir (<[x := os.File data]> es)) as ->.
    { destruct (es !! x) as [[]|]; by inversion H. }
    simpl. by rewrite lookup_insert_eq, insert_insert_eq.
  - destruct (es !! x) as [c|] eqn:Hx; [|done].
    destruct (os.store c (y :: p) data) as [|c'] eqn:Hc; [done|].
    inversion H; subst. rewrite store_cons, lookup_insert_eq.
    rewrite (IH c c') by done. by rewrite insert_insert_eq.
Qed.

(** Writing a file leaves every directory a directory. *)
Lemma store_keeps_dir n p data n' q es :
  os.store n p data = inr n' → os.walk n q = inr (os.Dir es) →
  ∃ es', os.walk n' q = inr (os.Dir es').
Proof.
  revert n n' q es. induction p as [|x p IH]; intros n n' q es H Hq; [done|].
  destruct n as [|es0]; [done|]. simpl in H.
  destruct q as [|y q].
  { destruct p; [destruct (es0 !! x) as [[]|]|destruct (es0 !! x) as [c|];
      [destruct (os.store c _ data)|]]; inversion H; subst; simpl; eauto. }
  simpl in Hq. destruct (es0 !! y) as [cy|] eqn:Hy; [|done].
  destruct p as [|z p].
  - destruct (decide (x = y)) as [->|Hxy].
    + rewrite Hy in H. destruct cy; [|done].
      by destruct q.
    + assert (n' = os.Dir (<[x := os.File data]> es0)) as ->.
      { destruct (es0 !! x) as [[]|]; by inversion H. }
      simpl. rewrite lookup_insert_ne, Hy by done. eauto.
  - destruct (es0 !! x) as [c|] eqn:Hx; [|done].
    destruct (os.store c (z :: p) data) as [|c'] eqn:Hc; [done|].
    inversion H; subst. rewrite walk_cons.
    destruct (decide (x = y)) as [->|Hxy].
    + rewrite lookup_insert_eq. rewrite Hy in Hx. inversion Hx; subst.
      by apply (IH c c' q es).
    + rewrite lookup_insert_ne, Hy by done. eauto.
Qed.

(** [MkdirAll] leaves a directory at its path. *)
Lemma mkdirs_walk n p n' :
  os.mkdirs n p = inr n' → ∃ es, os.walk n' p = inr (os.Dir es).
Proof.
  revert n n'. induction p as [|x p IH]; intros n n' H.
  - destruct n; inversion H; subst. simpl. eauto.
  - destruct n as [|es0]; [done|]. simpl in H.
    destruct (os.mkdirs (default (os.Dir ∅) (es0 !! x)) p) as [|c] eqn:Hc; [done|].
    inversion H; subst. simpl. rewrite lookup_insert_eq. by apply IH in Hc.
Qed.

(** [MkdirAll] of a directory that is there changes nothing. *)
Lemma mkdirs_dir n p es :
  os.walk n p = inr (os.Dir es) → os.mkdirs n p = inr n.
Proof.
  revert n. induction p as [|x p IH]; intros n H.
  - simpl in H. by inversion H.
  - destruct n as [|es0]; [done|]. simpl in *.
    destruct (es0 !! x) as [c|] eqn:Hx; [|done]. simpl.
    rewrite (IH c) by done. by rewrite insert_id.
Qed.

Lemma mkdirs_idem n p n' :
  os.mkdirs n p = inr n' → os.mkdirs n' p = inr n'.
Proof.
  intros H. apply mkdirs_walk in H as [es H]. by apply mkdirs_dir in H.
Qed.

(** A file that was written can be removed, and is gone then. *)
Lemma store_unlink n p data n' :
  os.store n p data = inr n' →
  ∃ n'', os.unlink n' p = inr n'' ∧ os.walk n'' p = inl ErrNotExist.
Proof.
  revert n n'. induction p as [|x p IH]; intros n n' H; [done|].
  destruct n as [|es]; [done|]. simpl in H.
  destruct p as [|y p].
  - assert (n' = os.Dir (<[x := os.File data]> es)) as ->.
    { destruct (es !! x) as [[]|]; by inversion H. }
    simpl. rewrite lookup_insert_eq. eexists; split; [done|].
    simpl. by rewrite lookup_delete_eq.
  - destruct (es !! x) as [c|] eqn:Hx; [|done].
    destruct (os.store c (y :: p) data) as [|c'] eqn:Hc; [done|].
    inversion H; subst. destruct (IH c c' Hc) as (c'' & Hun & Hw).
    rewrite unlink_cons, lookup_insert_eq, Hun.
    eexists; split; [done|]. by rewrite walk_cons, lookup_insert_eq.
Qed.

(** The same facts about the calls of package [os]. *)

Lemma WriteFile_find fs name data fs' :
  os.WriteFile fs name data = (fs', None) →
  os.find fs' name = inr (os.File data).
Proof.
  unfold os.WriteFile, os.update, os.find. case_decide; [done|].
  destruct (os.store _ _ _) as [|n] eqn:Hs; intros Heq; inversion Heq; subst.
  by apply store_walk in Hs.
Qed.

Lemma WriteFile_idem fs name data fs' :
  os.WriteFile fs name data = (fs', None) →
  os.WriteFile fs' name data = (fs', None).
Proof.
  unfold os.WriteFile, os.update. case_decide; [done|].
  destruct (os.store _ _ _) as [|n] eqn:Hs; intros Heq; inversion Heq; subst.
  unfold os.resolve in *. simpl. by rewrite (store_idem _ _ _ _ Hs).
Qed.

Lemma MkdirAll_idem fs path fs' e :
  os.MkdirAll fs path = (fs', e) → os.MkdirAll fs' path = (fs', e).
Proof.
  unfold os.MkdirAll, os.update. case_decide; [by intros [= <- <-]|].
  destruct (os.mkdirs _ _) as [e'|n] eqn:Hs; intros Heq; inversion Heq; subst.
  - by rewrite Hs.
  - unfold os.resolve in *. simpl. by rewrite (mkdirs_idem _ _ _ Hs).
Qed.

Lemma MkdirAll_WriteFile fs path fs1 name data fs2 :
  os.MkdirAll fs path = (fs1, None) →
  os.WriteFile fs1 name data = (fs2, None) →
  os.MkdirAll fs2 path = (fs2, None).
Proof.
  unfold os.MkdirAll, os.WriteFile, os.update.
  case_decide; [done|]. case_decide; [done|].
  destruct (os.mkdirs _ _) as [|n1] eqn:Hm; intros Heq1; inversion Heq1; subst.
  destruct (os.store _ _ _) as [|n2] eqn:Hs; intros Heq2; inversion Heq2; subst.
  unfold os.resolve in *. simpl in *.
  apply mkdirs_walk in Hm as [es Hm].
  destruct (store_keeps_dir _ _ _ _ _ _ Hs Hm) as [es' Hd].
  by rewrite (mkdirs_dir _ _ _ Hd).
Qed.

Lemma WriteFile_Remove fs name data fs' :
  os.WriteFile fs name data = (fs', None) →
  ∃ fs'', os.Remove fs' name = (fs'', None) ∧
          os.find fs'' name = inl ErrNotExist.
Proof.
  unfold os.WriteFile, os.Remove, os.update, os.find. case_decide; [done|].
  destruct (os.store _ _ _) as [|n] eqn:Hs; intros Heq; inversion Heq; subst.
  destruct (store_unlink _ _ _ _ Hs) as (n'' & Hun & Hw).
  unfold os.resolve in *. simpl. rewrite Hun. eauto.
Qed.

Lemma WriteFile_fails fs name data fs' e :
  os.WriteFile fs name data = (fs', Some e) → fs' = fs.
Proof.
  unfold os.WriteFile, os.update. case_decide; [by intros [= <-]|].
  by destruct (os.store _ _ _); intros [= <-].
Qed.

Lemma MkdirAll_find fs path fs' :
  os.MkdirAll fs path = (fs', None) →
  ∃ es, os.find fs' path = inr (os.Dir es).
Proof.
  unfold os.MkdirAll, os.update, os.find. case_decide; [done|].
  destruct (os.mkdirs _ _) as [|n] eqn:Hm; intros Heq; inversion Heq; subst.
  by apply mkdirs_walk in Hm.
Qed.

(** A directory is made in a directory that is there, unless a file has
    its name; a file is written into a directory that is there, unless a
    directory has its name. *)
Lemma mkdirs_snoc n p es x :
  os.walk n p = inr (os.Dir es) →
  (∀ data, es !! x ≠ Some (os.File data)) →
  ∃ n', os.mkdirs n (p ++ [x]) = inr n'
        ∧ os.walk n' (p ++ [x]) = inr (default (os.Dir ∅) (es !! x)).
Proof.
  revert n. induction p as [|y p IH]; intros n Hw Hx.
  - simpl in Hw. inversion Hw; subst. cbn [app os.mkdirs].
    assert (∃ es1, default (os.Dir ∅) (es !! x) = os.Dir es1) as [es1 Hes1].
    { destruct (es !! x) as [[data|es1]|] eqn:Hl; simpl; eauto.
      by destruct (Hx data). }
    rewrite Hes1. cbn [os.mkdirs]. eexists. split; [done|].
    by rewrite walk_cons, lookup_insert_eq.
  - destruct n as [|es0]; [done|]. rewrite walk_cons in Hw.
    destruct (es0 !! y) as [c|] eqn:Hy; [|done].
    destruct (IH c Hw Hx) as (c' & Hmk & Hwalk).
    rewrite <- app_comm_cons. cbn [os.mkdirs]. rewrite Hy. simpl.
    rewrite Hmk. eexists. split; [done|].
    cbn [os.walk]. by rewrite lookup_insert_eq.
Qed.

Lemma store_snoc n p es x data :
  os.walk n p = inr (os.Dir es) →
  (∀ es', es !! x ≠ Some (os.Dir es')) →
  ∃ n', os.store n (p ++ [x]) data = inr n'.
Proof.
  revert n. induction p as [|y p IH]; intros n Hw Hx.
  - simpl in Hw. inversion Hw; subst. simpl.
    destruct (es !! x) as [[data'|es1]|] eqn:Hl; eauto.
    by destruct (Hx es1).
  - destruct n as [|es0]; [done|]. rewrite walk_cons in Hw.
    destruct (es0 !! y) as [c|] eqn:Hy; [|done].
    destruct (IH c Hw Hx) as (c' & Hst).
    rewrite <- app_comm_cons.
    destruct (p ++ [x]) as [|z q] eqn:Hq; [by destruct p|].
    rewrite store_cons, Hy, Hst. eauto.
Qed.

(** ** The calls of the driver, step by step *)

#[local] Arguments os.Stat : simpl never.
#[local] Arguments os.ReadFile : simpl never.
#[local] Arguments os.ReadDir : simpl never.
#[local] Arguments os.MkdirAll : simpl never.
#[local] Arguments os.WriteFile : simpl never.
#[local] Arguments os.Remove : simpl never.
#[local] Arguments filepath.Join : simpl never.
#[local] Arguments json.MarshalIndent : simpl never.
#[local] Arguments json.Unmarshal : simpl never.

(** [getOrCreateMutex] returns the mutex of the collection, registered in
    the lock table, unless the guard is held. *)
Lemma getOrCreateMutex_eq c w :
  mutex (driver w) = Unlocked →
  getOrCreateMutex c w
  = Returns (OfCollection c)
      (mkWorld
         (mkDriver Unlocked
            (<[c := held (driver w) (OfCollection c)]> (mutexes (driver w)))
            (dir (driver w)))
         (disk w) (trace w ++ [EvLock Guard; EvUnlock Guard])).
Proof.
  intros Hg. unfold getOrCreateMutex, Lock, Unlock. unfold_M. simpl.
  rewrite Hg. simpl.
  destruct (mutexes (driver w) !! c) as [m|] eqn:Hc; simpl.
  - rewrite insert_id by done. by rewrite <- app_assoc.
  - by rewrite <- app_assoc.
Qed.

Lemma getOrCreateMutex_blocks c w :
  mutex (driver w) = Locked → getOrCreateMutex c w = Blocks w.
Proof.
  intros Hg. unfold getOrCreateMutex, Lock. unfold_M. simpl. by rewrite Hg.
Qed.

(** What [Write] did when it returned: either it refused an empty name
    and touched nothing, or it took and released the guard and the lock of
    the collection and, in between, ran [MkdirAll], [MarshalIndent] and
    [WriteFile] up to the first error. *)
Lemma Write_inv c r v w res w1 :
  Write c r v w = Returns res w1 →
  ((c = "" ∨ r = "") ∧ res = Some (Errorf "missing collection or resource")
   ∧ w1 = w)
  ∨ (c ≠ "" ∧ r ≠ "" ∧
     held (driver w) Guard = Unlocked ∧
     held (driver w) (OfCollection c) = Unlocked ∧
     driver w1 = set_mutex (OfCollection c) Unlocked (driver w) ∧
     ∃ evs,
       trace w1 = trace w ++ [EvLock Guard; EvUnlock Guard; EvLock (OfCollection c)]
                    ++ evs ++ [EvUnlock (OfCollection c)] ∧
       let dirp := collectionPath (driver w) c in
       let fnl := filepath.Join [dirp; r +:+ ".json"] in
       let mk := os.MkdirAll (disk w) dirp in
       match mk.2 with
       | Some e => res = Some e ∧ disk w1 = mk.1 ∧ evs = [EvMkdirAll dirp]
       | None =>
           match json.MarshalIndent v "" (String json.tab "") with
           | inl e => res = Some e ∧ disk w1 = mk.1 ∧ evs = [EvMkdirAll dirp]
           | inr b =>
               res = (os.WriteFile mk.1 fnl b).2 ∧
               disk w1 = (os.WriteFile mk.1 fnl b).1 ∧
               evs = [EvMkdirAll dirp; EvWriteFile fnl b]
           end
       end).
Proof.
  unfold Write. case_decide as Hempty.
  { intros [= <- <-]. by left. }
  intros H. right.
  assert (c ≠ "" ∧ r ≠ "") as [Hc Hr] by (split; intros ->; apply Hempty; auto).
  do 2 (split; [done|]).
  unfold mbind in H at 1. unfold M_bind in H at 1.
  destruct (mutex (driver w)) eqn:Hg;
    [|by rewrite getOrCreateMutex_blocks in H].
  rewrite getOrCreateMutex_eq in H by done.
  split; [done|].
  unfold Lock, Unlock in H. unfold_M. simpl in H.
  rewrite lookup_insert_eq in H. simpl in H.
  destruct (default Unlocked (mutexes (driver w) !! c)) eqn:Hl; [|done].
  split; [done|].
  revert H. unfold collectionPath. simpl.
  destruct (os.MkdirAll (disk w) (filepath.Join [dir (driver w); c]))
    as [fs1 [e|]] eqn:Hmk; simpl.
  - intros [= <- <-]; simpl. rewrite !insert_insert_eq, ?Hg.
    split; [done|]. exists [EvMkdirAll (filepath.Join [dir (driver w); c])].
    by rewrite <- !app_assoc.
  - destruct (json.MarshalIndent v "" (String json.tab "")) as [e|b] eqn:Hm;
      simpl.
    + intros [= <- <-]; simpl. rewrite !insert_insert_eq, ?Hg.
      split; [done|]. exists [EvMkdirAll (filepath.Join [dir (driver w); c])].
      by rewrite <- !app_assoc.
    + intros [= <- <-]; simpl. rewrite !insert_insert_eq, ?Hg.
      split; [done|]. eexists. split; [|done]. by rewrite <- !app_assoc.
Qed.

(** [Write] returns when the guard and the lock of the collection are
    free. *)
Lemma Write_returns c r v w :
  held (driver w) Guard = Unlocked →
  held (driver w) (OfCollection c) = Unlocked →
  ∃ res w1, Write c r v w = Returns res w1.
Proof.
  simpl. intros Hg Hl. unfold Write. case_decide; [by eauto|].
  unfold mbind at 1. unfold M_bind at 1.
  rewrite getOrCreateMutex_eq by done.
  unfold Lock, Unlock. unfold_M. simpl. rewrite lookup_insert_eq, Hl. simpl.
  destruct (os.MkdirAll _ _) as [fs1 [e|]]; simpl; [by eauto|].
  destruct (json.MarshalIndent _ _ _); simpl; by eauto.
Qed.

(** [Delete] takes the same two locks around one call of [Remove]. *)
Lemma Delete_eq c r w :
  held (driver w) Guard = Unlocked →
  held (driver w) (OfCollection c) = Unlocked →
  let path := recordPath (driver w) c r in
  Delete c r w
  = Returns (os.Remove (disk w) path).2
      (mkWorld (set_mutex (OfCollection c) Unlocked (driver w))
         (os.Remove (disk w) path).1
         (trace w ++ [EvLock Guard; EvUnlock Guard; EvLock (OfCollection c);
                      EvRemove path; EvUnlock (OfCollection c)])).
Proof.
  simpl. intros Hg Hl. unfold Delete, recordPath.
  unfold mbind at 1. unfold M_bind at 1. unfold field at 1. unfold gets at 1.
  unfold mbind at 1. unfold M_bind at 1.
  rewrite getOrCreateMutex_eq by done.
  unfold Lock, Unlock. unfold_M. simpl. rewrite lookup_insert_eq, Hl. simpl.
  rewrite !insert_insert_eq, Hg. by rewrite <- !app_assoc.
Qed.

Lemma Delete_inv c r w res w1 :
  Delete c r w = Returns res w1 →
  held (driver w) Guard = Unlocked ∧
  held (driver w) (OfCollection c) = Unlocked.
Proof.
  simpl. unfold Delete.
  unfold mbind at 1. unfold M_bind at 1. unfold field at 1. unfold gets at 1.
  unfold mbind at 1. unfold M_bind at 1.
  destruct (mutex (driver w)) eqn:Hg;
    [|by rewrite getOrCreateMutex_blocks].
  rewrite getOrCreateMutex_eq by done.
  unfold Lock, Unlock. unfold_M. simpl. rewrite lookup_insert_eq. simpl.
  by destruct (default Unlocked (mutexes (driver w) !! c)).
Qed.

(** [Read] takes no lock: it is one [Stat] and, when the file is there,
    one [ReadFile] and the decoding of its bytes. *)
Lemma Read_eq c r w :
  let path := recordPath (driver w) c r in
  Read c r w
  = match os.Stat (disk w) path with
    | inl e =>
        Returns (inl e) (mkWorld (driver w) (disk w) (trace w ++ [EvStat path]))
    | inr _ =>
        Returns
          match os.ReadFile (disk w) path with
          | inl e => inl e
          | inr b => json.Unmarshal b
          end
          (mkWorld (driver w) (disk w)
             (trace w ++ [EvStat path; EvReadFile path]))
    end.
Proof.
  simpl. unfold Read, recordPath. unfold_M. simpl.
  destruct (os.Stat _ _); simpl; [done|].
  destruct (os.ReadFile _ _); simpl; by rewrite <- app_assoc.
Qed.

(** ** Number literals *)

Lemma is_nil_true {A} (l : list A) : json.is_nil l = true → l = [].
Proof. by destruct l. Qed.

Lemma span_digits_drop s :
  (json.span_digits s).1 ++ json.drop_digits s = s.
Proof.
  induction s as [|c s IH]; simpl; [done|].
  destruct (json.is_digit c); simpl; by rewrite ?IH.
Qed.

Lemma span_digits_app s rest :
  ends_number rest = true →
  json.span_digits (s ++ rest)
  = ((json.span_digits s).1, json.drop_digits s ++ rest).
Proof.
  intros Hrest. induction s as [|c s IH]; simpl.
  - destruct rest as [|c rest]; simpl in *; [done|].
    destruct (json.is_digit c); [done|done].
  - destruct (json.is_digit c); simpl; by rewrite ?IH.
Qed.

(** All of [s] is digits, and there is one at least. *)
Lemma digits1_all s rest :
  s ≠ [] → json.drop_digits s = [] → ends_number rest = true →
  json.digits1 (s ++ rest) = Some (s, rest).
Proof.
  intros Hs Hd Hrest. unfold json.digits1.
  rewrite span_digits_app, Hd by done.
  pose proof (span_digits_drop s) as Hsp. rewrite Hd, app_nil_r in Hsp.
  rewrite Hsp. by destruct s.
Qed.

Lemma scan_exp_valid s rest :
  json.valid_exp s = true → ends_number rest = true →
  json.scan_exp (s ++ rest) = Some (s, rest).
Proof.
  intros Hs Hrest. destruct s as [|e [|x s4]]; [|done|].
  - destruct rest as [|c rest]; [done|]. simpl in *.
    apply negb_true_iff in Hrest.
    destruct (Ascii.eqb c "e"), (Ascii.eqb c "E"); try done;
      by rewrite ?orb_true_r in Hrest.
  - unfold json.valid_exp in Hs. cbn [json.scan_exp app].
    destruct (Ascii.eqb e "e" || Ascii.eqb e "E"); [|done].
    destruct (Ascii.eqb x "+" || Ascii.eqb x "-").
    + destruct s4 as [|y s4]; [done|].
      apply is_nil_true in Hs.
      change (y :: s4 ++ rest) with ((y :: s4) ++ rest).
      by rewrite digits1_all.
    + apply is_nil_true in Hs.
      change (x :: s4 ++ rest) with ((x :: s4) ++ rest).
      by rewrite digits1_all.
Qed.

Lemma scan_frac_valid s rest :
  json.valid_frac s = true → ends_number rest = true →
  ∃ f s3, json.scan_frac (s ++ rest) = Some (f, s3 ++ rest)
          ∧ f ++ s3 = s ∧ json.valid_exp s3 = true.
Proof.
  intros Hs Hrest. unfold json.valid_frac in Hs.
  assert (json.valid_exp s = true →
          json.scan_frac (s ++ rest) = Some ([], s ++ rest)) as Hplain.
  { intros Hv. destruct s as [|c s].
    - destruct rest as [|c rest]; [done|]. simpl in *.
      apply negb_true_iff in Hrest.
      destruct (Ascii.eqb c "."); [|done].
      by rewrite orb_true_r in Hrest.
    - simpl. destruct (Ascii.eqb_spec c ".") as [->|]; [|done].
      by destruct s. }
  destruct s as [|c [|c1 s']]; [by exists [], []; auto..|].
  destruct (Ascii.eqb c "." && json.is_digit c1) eqn:Hdot;
    [|by exists [], (c :: c1 :: s'); auto].
  apply andb_true_iff in Hdot as [Hc Hc1].
  exists (c :: c1 :: (json.span_digits s').1), (json.drop_digits s').
  split; [|split; [|done]].
  - simpl. rewrite Hc. unfold json.digits1. simpl. rewrite Hc1.
    by rewrite span_digits_app.
  - simpl. by rewrite span_digits_drop.
Qed.

Lemma scan_unsigned_valid s rest :
  json.valid_unsigned s = true → ends_number rest = true →
  json.scan_unsigned (s ++ rest) = Some (s, rest).
Proof.
  intros Hs Hrest. destruct s as [|c s1]; [done|].
  unfold json.scan_unsigned. simpl in *.
  destruct (Ascii.eqb c "0").
  - destruct (scan_frac_valid s1 rest Hs Hrest) as (f & s3 & -> & <- & Hexp).
    by rewrite scan_exp_valid.
  - destruct (json.between 49 57 c); [|done].
    rewrite span_digits_app by done. simpl.
    destruct (scan_frac_valid _ rest Hs Hrest) as (f & s3 & -> & Hf & Hexp).
    rewrite scan_exp_valid by done. simpl.
    by rewrite Hf, span_digits_drop.
Qed.

(** The scanner reads a valid number literal whole. *)
Lemma scan_number_valid n rest :
  json.isValidNumber n = true → ends_number rest = true →
  json.scan_number (n ++ rest) = Some (n, rest).
Proof.
  intros Hn Hrest. destruct n as [|c n]; [done|].
  unfold json.isValidNumber in Hn. cbn [json.scan_number app].
  destruct (Ascii.eqb c "-").
  - by rewrite scan_unsigned_valid.
  - change (c :: n ++ rest) with ((c :: n) ++ rest).
    by rewrite scan_unsigned_valid.
Qed.

(** A number literal starts with a sign or a digit. *)
Lemma isValidNumber_head c n :
  json.isValidNumber (c :: n) = true →
  Ascii.eqb c "-" || json.is_digit c = true.
Proof.
  simpl. destruct (Ascii.eqb c "-"); [done|]. simpl.
  destruct (Ascii.eqb_spec c "0") as [->|]; [done|].
  unfold json.is_digit, json.between.
  destruct (49 <=? json.code c)%N eqn:H1; [|done].
  destruct (json.code c <=? 57)%N eqn:H2; [|done].
  intros _. apply N.leb_le in H1. apply andb_true_iff. split; [|done].
  apply N.leb_le. lia.
Qed.

(** ** String literals *)

(** A byte below 128 is read back from what the encoder wrote for it. *)
Lemma unquote_quote_byte b X :
  (json.code b <? 128)%N = true →
  json.unquote (json.quote_byte b ++ X) = json.prepend [b] (json.unquote X).
Proof.
  destruct b as [[] [] [] [] [] [] [] []]; intros H;
    first [discriminate H | reflexivity].
Qed.

Lemma high_byte b :
  (json.code b <? 128)%N = false →
  Ascii.eqb b json.dquote = false ∧ Ascii.eqb b "\" = false
  ∧ (json.code b <? 32)%N = false.
Proof.
  intros H. repeat split.
  - destruct (Ascii.eqb_spec b json.dquote) as [->|]; [discriminate H|done].
  - destruct (Ascii.eqb_spec b "\") as [->|]; [discriminate H|done].
  - apply N.ltb_ge. apply N.ltb_ge in H. lia.
Qed.

(** Above 127 the decoder copies a well-formed sequence and replaces an
    invalid byte. *)
Lemma unquote_high c s1 :
  (json.code c <? 128)%N = false →
  json.unquote (c :: s1)
  = match json.rune_len (c :: s1), s1 with
    | Some 2%nat, b1 :: s2 => json.prepend [c; b1] (json.unquote s2)
    | Some 3%nat, b1 :: b2 :: s3 => json.prepend [c; b1; b2] (json.unquote s3)
    | Some 4%nat, b1 :: b2 :: b3 :: s4 =>
        json.prepend [c; b1; b2; b3] (json.unquote s4)
    | _, _ => json.prepend (json.encode_rune 65533) (json.unquote s1)
    end.
Proof.
  intros H. destruct (high_byte c H) as (H1 & H2 & H3).
  cbn [json.unquote]. by rewrite H1, H2, H3, H.
Qed.

(** The size [rune_len] finds depends on the bytes of the sequence only. *)
Lemma rune_len_2 b0 b1 s X :
  json.rune_len (b0 :: b1 :: s) = Some 2%nat →
  json.rune_len (b0 :: b1 :: X) = Some 2%nat.
Proof. rune_len_cases s. Qed.

Lemma rune_len_3 b0 b1 b2 s X :
  json.rune_len (b0 :: b1 :: b2 :: s) = Some 3%nat →
  json.rune_len (b0 :: b1 :: b2 :: X) = Some 3%nat.
Proof. rune_len_cases s. Qed.

Lemma rune_len_4 b0 b1 b2 b3 s X :
  json.rune_len (b0 :: b1 :: b2 :: b3 :: s) = Some 4%nat →
  json.rune_len (b0 :: b1 :: b2 :: b3 :: X) = Some 4%nat.
Proof. rune_len_cases s. Qed.

(** The escape of a line separator is read back as the separator. *)
Lemma unquote_line_sep b0 b1 b2 X :
  json.line_sep b0 b1 b2 = true →
  json.unquote (["\"; "u"; "2"; "0"; "2"; json.hex (json.code b2 mod 16)]%char ++ X)
  = json.prepend [b0; b1; b2] (json.unquote X).
Proof.
  unfold json.line_sep. intros H.
  apply andb_true_iff in H as [H H2]. apply andb_true_iff in H as [H0 H1].
  apply Ascii.eqb_eq in H0 as ->. apply Ascii.eqb_eq in H1 as ->.
  apply orb_true_iff in H2 as [H2|H2]; apply Ascii.eqb_eq in H2 as ->;
    reflexivity.
Qed.

(** A string of well-formed UTF-8 is read back from its literal. *)
Lemma unquote_quote_body s rest :
  json.utf8_valid s = true →
  json.unquote (json.quote_body s ++ json.dquote :: rest) = Some (s, rest).
Proof.
  remember (length s) as n eqn:Hn. assert (length s ≤ n)%nat as Hlen by lia.
  clear Hn. revert s Hlen.
  induction n as [|n IH]; intros s Hlen Hv.
  { destruct s; [reflexivity|simpl in Hlen; lia]. }
  destruct s as [|b0 s1]; [reflexivity|].
  cbn [json.quote_body json.utf8_valid] in *. simpl in Hlen.
  destruct (json.code b0 <? 128)%N eqn:Hlow.
  { rewrite <- app_assoc, unquote_quote_byte, IH by (done || lia). done. }
  destruct (json.rune_len (b0 :: s1)) as [[|[|[|[|[|k]]]]]|] eqn:Hr; try done.
  - destruct s1 as [|b1 s2]; [done|]. simpl in Hlen.
    cbn [app]. rewrite unquote_high, (rune_len_2 _ _ _ _ Hr) by done.
    by rewrite IH by (done || lia).
  - destruct s1 as [|b1 [|b2 s3]]; [done..|]. simpl in Hlen.
    destruct (json.line_sep b0 b1 b2) eqn:Hsep.
    + rewrite <- app_assoc, (unquote_line_sep b0 b1 b2), IH by (done || lia).
      done.
    + cbn [app]. rewrite unquote_high, (rune_len_3 _ _ _ _ _ Hr) by done.
      by rewrite IH by (done || lia).
  - destruct s1 as [|b1 [|b2 [|b3 s4]]]; [done..|]. simpl in Hlen.
    cbn [app]. rewrite unquote_high, (rune_len_4 _ _ _ _ _ _ Hr) by done.
    by rewrite IH by (done || lia).
Qed.

Lemma unquote_quote s rest :
  json.ValidString s = true →
  json.unquote (json.quote_body (json.lit s) ++ json.dquote :: rest)
  = Some (json.lit s, rest).
Proof. apply unquote_quote_body. Qed.

(** ** Documents *)

#[local] Arguments json.maxNestingDepth : simpl never.
#[local] Opaque json.maxNestingDepth.

Lemma value_ind' (P : json.value → Prop) :
  P json.Null →
  (∀ b, P (json.Boolean b)) →
  (∀ n, P (json.Number n)) →
  (∀ s, P (json.Str s)) →
  (∀ vs, Forall P vs → P (json.Array vs)) →
  (∀ fs, Forall (λ kv, P kv.2) fs → P (json.Object fs)) →
  ∀ v, P v.
Proof.
  intros HN HB HNum HS HA HO. fix IH 1. intros [|b|n|s|vs|fs].
  - exact HN.
  - apply HB.
  - apply HNum.
  - apply HS.
  - apply HA. induction vs as [|v vs IHvs]; constructor; [apply IH|exact IHvs].
  - apply HO. induction fs as [|[k v] fs IHfs]; constructor;
      [apply IH|exact IHfs].
Qed.

Lemma skip_space_tabs d X :
  json.skip_space (concat (replicate d [json.tab]) ++ X) = json.skip_space X.
Proof. induction d as [|d IH]; [done|]. simpl. by rewrite IH. Qed.

Lemma skip_space_line d X :
  json.skip_space (lineTab d ++ X) = json.skip_space X.
Proof. unfold lineTab, json.line. simpl. apply skip_space_tabs. Qed.

Lemma skip_space_keep c s :
  json.is_space c = false → json.skip_space (c :: s) = c :: s.
Proof. simpl. by intros ->. Qed.

Lemma skip_space_drop c s :
  json.is_space c = true → json.skip_space (c :: s) = json.skip_space s.
Proof. simpl. by intros ->. Qed.

Lemma skip_space_value out X :
  starts_value out → json.skip_space (out ++ X) = out ++ X.
Proof. destruct out as [|c out]; [done|]. simpl. by intros [-> _]. Qed.

Lemma lineTab_length d : (1 ≤ length (lineTab d))%nat.
Proof. unfold lineTab, json.line. simpl. lia. Qed.

Lemma ends_value_line d X : ends_value (lineTab d ++ X).
Proof. by right. Qed.

(** The first byte of a number literal tells the decoder what it reads. *)
Lemma number_head c :
  Ascii.eqb c "-" || json.is_digit c = true →
  json.is_space c = false ∧ Ascii.eqb c "]" = false ∧ Ascii.eqb c "}" = false
  ∧ Ascii.eqb c "{" = false ∧ Ascii.eqb c "[" = false
  ∧ Ascii.eqb c json.dquote = false ∧ Ascii.eqb c "t" = false
  ∧ Ascii.eqb c "f" = false ∧ Ascii.eqb c "n" = false.
Proof.
  destruct c as [[] [] [] [] [] [] [] []]; intros H;
    first [discriminate H | by repeat split].
Qed.

Lemma number_literal_inv n l :
  json.number_literal n = inr l →
  json.isValidNumber l = true
  ∧ l = if decide (n = "") then json.lit "0" else json.lit n.
Proof.
  unfold json.number_literal.
  destruct (json.isValidNumber _) eqn:H; [|done]. by intros [= <-].
Qed.

Lemma number_literal_head n l :
  json.number_literal n = inr l →
  ∃ c l', l = c :: l' ∧ Ascii.eqb c "-" || json.is_digit c = true.
Proof.
  intros [Hv _]%number_literal_inv. destruct l as [|c l']; [done|].
  exists c, l'. split; [done|]. by apply isValidNumber_head in Hv.
Qed.

Lemma sequence_inv {A} (l : list (error + A)) r :
  json.sequence l = inr r → l = map inr r.
Proof.
  revert r. induction l as [|[e|a] l IH]; intros r; simpl; [by intros [= <-]|done|].
  destruct (json.sequence l) as [|r'] eqn:Hl; [done|].
  intros [= <-]. by rewrite (IH r').
Qed.

(** What [MarshalIndent] writes for a value starts as a value does. *)
Lemma indented_starts d v out :
  indentedTab d v = inr out → starts_value out.
Proof.
  unfold indentedTab. destruct v as [|[]|n|s|vs|fs]; simpl.
  - by intros [= <-].
  - by intros [= <-].
  - by intros [= <-].
  - intros (c & l' & -> & Hc)%number_literal_head.
    apply number_head in Hc. simpl. tauto.
  - by intros [= <-].
  - destruct (_ <=? d)%nat; [done|].
    destruct (json.sequence _) as [|[|item items]]; [done|..]; by intros [= <-].
  - destruct (_ <=? d)%nat; [done|].
    destruct (json.sequence _) as [|[|item items]]; [done|..]; by intros [= <-].
Qed.

Lemma indentedTab_Array d vs :
  indentedTab d (json.Array vs)
  = if (json.maxNestingDepth <=? d)%nat then inl ErrMaxDepth
    else match json.sequence (map (indentedTab (S d)) vs) with
         | inl e => inl e
         | inr [] => inr (json.lit "[]")
         | inr items =>
             inr ("["%char :: lineTab (S d)
                    ++ json.join (","%char :: lineTab (S d)) items
                    ++ lineTab d ++ ["]"%char])
         end.
Proof. reflexivity. Qed.

Lemma indentedTab_Object d fs :
  indentedTab d (json.Object fs)
  = if (json.maxNestingDepth <=? d)%nat then inl ErrMaxDepth
    else match json.sequence
                 (map (λ kv, match kv with
                             | (k, x) =>
                                 match indentedTab (S d) x with
                                 | inl e => inl e
                                 | inr b =>
                                     inr (json.quote k
                                            ++ ":"%char :: " "%char :: b)
                                 end
                             end) fs) with
         | inl e => inl e
         | inr [] => inr (json.lit "{}")
         | inr items =>
             inr ("{"%char :: lineTab (S d)
                    ++ json.join (","%char :: lineTab (S d)) items
                    ++ lineTab d ++ ["}"%char])
         end.
Proof. reflexivity. Qed.

Lemma parse_value_Array f d s1 :
  json.parse_value (S f) d ("["%char :: s1)
  = if (json.maxNestingDepth <=? d)%nat then None
    else match json.skip_space s1 with
         | [] => None
         | c2 :: s2 =>
             if Ascii.eqb c2 "]" then Some (json.Array [], s2)
             else match json.parse_elements f (S d) (c2 :: s2) with
                  | Some (vs, s3) => Some (json.Array vs, s3)
                  | None => None
                  end
         end.
Proof. reflexivity. Qed.

Lemma parse_value_Object f d s1 :
  json.parse_value (S f) d ("{"%char :: s1)
  = if (json.maxNestingDepth <=? d)%nat then None
    else match json.skip_space s1 with
         | [] => None
         | c2 :: s2 =>
             if Ascii.eqb c2 "}" then Some (json.Object [], s2)
             else match json.parse_members f (S d) (c2 :: s2) with
                  | Some (fs, s3) => Some (json.Object fs, s3)
                  | None => None
                  end
         end.
Proof. reflexivity. Qed.

Lemma parse_value_Str f d s1 :
  json.parse_value (S f) d (json.dquote :: s1)
  = match json.unquote s1 with
    | Some (bs, s2) => Some (json.Str (json.str bs), s2)
    | None => None
    end.
Proof. reflexivity. Qed.

Lemma parse_value_Number f d c s :
  Ascii.eqb c "-" || json.is_digit c = true →
  json.parse_value (S f) d (c :: s)
  = match json.scan_number (c :: s) with
    | Some (n, s2) => Some (json.Number (json.str n), s2)
    | None => None
    end.
Proof.
  intros (_ & _ & _ & H1 & H2 & H3 & H4 & H5 & H6)%number_head.
  cbn [json.parse_value]. by rewrite H1, H2, H3, H4, H5, H6.
Qed.

Lemma parse_elements_eq f d s :
  json.parse_elements (S f) d s
  = match json.parse_value f d s with
    | None => None
    | Some (v, s1) =>
        match json.skip_space s1 with
        | [] => None
        | c :: s2 =>
            if Ascii.eqb c "," then
              match json.parse_elements f d (json.skip_space s2) with
              | Some (vs, s3) => Some (v :: vs, s3)
              | None => None
              end
            else if Ascii.eqb c "]" then Some ([v], s2)
            else None
        end
    end.
Proof. reflexivity. Qed.

Lemma parse_members_eq f d s0 :
  json.parse_members (S f) d (json.dquote :: s0)
  = match json.unquote s0 with
    | None => None
    | Some (k, s1) =>
        match json.skip_space s1 with
        | [] => None
        | c1 :: s2 =>
            if Ascii.eqb c1 ":" then
              match json.parse_value f d (json.skip_space s2) with
              | None => None
              | Some (v, s3) =>
                  match json.skip_space s3 with
                  | [] => None
                  | c :: s4 =>
                      if Ascii.eqb c "," then
                        match json.parse_members f d (json.skip_space s4) with
                        | Some (fs, s5) => Some ((json.str k, v) :: fs, s5)
                        | None => None
                        end
                      else if Ascii.eqb c "}" then Some ([(json.str k, v)], s4)
                      else None
                  end
              end
            else None
        end
    end.
Proof. reflexivity. Qed.

Lemma starts_value_length out : starts_value out → (1 ≤ length out)%nat.
Proof. destruct out; [done|]. simpl. lia. Qed.

Lemma starts_value_app out X : starts_value out → starts_value (out ++ X).
Proof. by destruct out. Qed.

Lemma cons_eq_inv {A} (x y : A) l k : x :: l = y :: k → x = y ∧ l = k.
Proof. by intros [= -> ->]. Qed.

Lemma join_single sep item : json.join sep [item] = item.
Proof. reflexivity. Qed.

Lemma join_cons2 sep item item2 items :
  json.join sep (item :: item2 :: items)
  = item ++ sep ++ json.join sep (item2 :: items).
Proof. reflexivity. Qed.

Lemma join_starts sep item items :
  starts_value item → starts_value (json.join sep (item :: items)).
Proof.
  intros H. destruct items; [done|]. rewrite join_cons2.
  by apply starts_value_app.
Qed.

(** The elements of an array are read back one by one. *)
Lemma parse_elements_join vs :
  Forall decodes vs →
  ∀ d items fuel rest,
    forallb Lossless vs = true →
    map (indentedTab (S d)) vs = map inr items →
    vs ≠ [] →
    (length (json.join (","%char :: lineTab (S d)) items) < fuel)%nat →
    json.parse_elements fuel (S d)
      (json.join (","%char :: lineTab (S d)) items
         ++ lineTab d ++ "]"%char :: rest)
    = Some (vs, rest).
Proof.
  induction 1 as [|v vs Hv Hvs IH]; intros d items fuel rest Hl Hmap Hne Hlen;
    [done|].
  destruct items as [|item items]; [done|].
  injection Hmap as Hitem Hitems.
  simpl in Hl. apply andb_true_iff in Hl as [Hlv Hlvs].
  pose proof (indented_starts _ _ _ Hitem) as Hstart.
  pose proof (starts_value_length _ Hstart) as Hitem1.
  destruct fuel as [|f]; [lia|]. rewrite parse_elements_eq.
  destruct vs as [|v2 vs].
  - destruct items; [|done]. rewrite join_single in *.
    rewrite (Hv (S d) item f) by (done || lia || apply ends_value_line).
    rewrite skip_space_line. reflexivity.
  - destruct items as [|item2 items]; [done|].
    rewrite join_cons2 in *. rewrite <- !app_assoc.
    rewrite !length_app in Hlen. cbn [length] in Hlen.
    rewrite (Hv (S d) item f) by (done || lia || by left).
    cbn [app]. rewrite (skip_space_keep ",") by done.
    change (Ascii.eqb "," ",") with true. cbn iota.
    injection Hitems as Hitem2 Hitems.
    pose proof (indented_starts _ _ _ Hitem2) as Hstart2.
    rewrite skip_space_line, skip_space_value by by apply join_starts.
    rewrite (IH d (item2 :: items) f rest); [done|done|..].
    + simpl. by rewrite Hitem2, Hitems.
    + done.
    + pose proof (lineTab_length (S d)). lia.
Qed.

Lemma member_app k b X :
  (json.quote k ++ ":"%char :: " "%char :: b) ++ X
  = json.dquote :: json.quote_body (json.lit k)
      ++ json.dquote :: ":"%char :: " "%char :: b ++ X.
Proof. unfold json.quote. simpl. by rewrite <- !app_assoc. Qed.

Lemma str_lit s : json.str (json.lit s) = s.
Proof. apply string_of_list_ascii_of_string. Qed.

(** One member of an object: its key, the colon and its value. *)
Lemma parse_member f d k b v X :
  json.ValidString k = true → starts_value b →
  json.parse_value f d (b ++ X) = Some (v, X) →
  json.parse_members (S f) d ((json.quote k ++ ":"%char :: " "%char :: b) ++ X)
  = match json.skip_space X with
    | [] => None
    | c :: s4 =>
        if Ascii.eqb c "," then
          match json.parse_members f d (json.skip_space s4) with
          | Some (fs, s5) => Some ((k, v) :: fs, s5)
          | None => None
          end
        else if Ascii.eqb c "}" then Some ([(k, v)], s4)
        else None
    end.
Proof.
  intros Hk Hb Hv. rewrite member_app, parse_members_eq, unquote_quote by done.
  rewrite (skip_space_keep ":") by done.
  change (Ascii.eqb ":" ":") with true. cbn iota.
  rewrite (skip_space_drop " ") by done.
  rewrite skip_space_value, Hv by done. by rewrite str_lit.
Qed.

(** The members of an object are read back one by one. *)
Lemma parse_members_join fs :
  Forall (λ kv, decodes kv.2) fs →
  ∀ d items fuel rest,
    forallb (λ kv, json.ValidString kv.1 && Lossless kv.2) fs = true →
    map (λ kv, match kv with
               | (k, x) =>
                   match indentedTab (S d) x with
                   | inl e => inl e
                   | inr b => inr (json.quote k ++ ":"%char :: " "%char :: b)
                   end
               end) fs = map inr items →
    fs ≠ [] →
    (length (json.join (","%char :: lineTab (S d)) items) < fuel)%nat →
    json.parse_members fuel (S d)
      (json.join (","%char :: lineTab (S d)) items
         ++ lineTab d ++ "}"%char :: rest)
    = Some (fs, rest).
Proof.
  induction 1 as [|[k v] fs Hv Hfs IH]; intros d items fuel rest Hl Hmap Hne Hlen;
    [done|].
  destruct items as [|item items]; [done|].
  rewrite !map_cons in Hmap. apply cons_eq_inv in Hmap as [Hitem Hitems].
  destruct (indentedTab (S d) v) as [|b] eqn:Hb; [done|].
  assert (item = json.quote k ++ ":"%char :: " "%char :: b) as ->
    by congruence.
  clear Hitem.
  cbn [forallb fst snd] in Hl. apply andb_true_iff in Hl as [Hl Hlfs].
  apply andb_true_iff in Hl as [Hk Hlv].
  pose proof (indented_starts _ _ _ Hb) as Hstart.
  pose proof (starts_value_length _ Hstart) as Hb1.
  destruct fuel as [|f]; [lia|].
  destruct fs as [|[k2 v2] fs].
  - destruct items; [|done]. rewrite join_single in *.
    rewrite length_app in Hlen. cbn [length] in Hlen.
    rewrite (parse_member f (S d) k b v) ; [|done|done|].
    + rewrite skip_space_line. reflexivity.
    + apply Hv; [done|done|lia|apply ends_value_line].
  - destruct items as [|item2 items]; [done|].
    rewrite join_cons2 in *. rewrite <- !app_assoc.
    rewrite !length_app in Hlen. cbn [length] in Hlen.
    rewrite app_assoc.
    rewrite (parse_member f (S d) k b v) ; [|done|done|].
    2:{ apply Hv; [done|done|lia|by left]. }
    cbn [app]. rewrite (skip_space_keep ",") by done.
    change (Ascii.eqb "," ",") with true. cbn iota.
    rewrite !map_cons in Hitems. apply cons_eq_inv in Hitems as [Hitem2 Hitems].
    destruct (indentedTab (S d) v2) as [|b2] eqn:Hb2; [done|].
    assert (item2 = json.quote k2 ++ ":"%char :: " "%char :: b2) as ->
      by congruence.
    clear Hitem2.
    rewrite skip_space_line, skip_space_value by by apply join_starts.
    rewrite (IH d ((json.quote k2 ++ ":"%char :: " "%char :: b2) :: items) f rest);
      [done|done|..].
    + rewrite !map_cons, Hb2. by f_equal.
    + done.
    + pose proof (lineTab_length (S d)). lia.
Qed.

Lemma ends_value_number rest : ends_value rest → ends_number rest = true.
Proof. destruct rest as [|c rest]; [done|]. by intros [->| ->]. Qed.

(** Every value is read back from what [MarshalIndent] wrote for it. *)
Lemma decodes_all v : decodes v.
Proof.
  induction v as [|b|n|s|vs IH|fs IH] using value_ind';
    intros d out fuel rest Hl Hout Hlen Hrest.
  - injection Hout as <-. destruct fuel as [|f]; [simpl in Hlen; lia|].
    reflexivity.
  - injection Hout as <-. destruct fuel as [|f]; [destruct b; simpl in Hlen; lia|].
    by destruct b.
  - apply number_literal_inv in Hout as Hn. destruct Hn as [Hvalid Hlit].
    apply number_literal_head in Hout as (c & l' & -> & Hc).
    destruct fuel as [|f]; [simpl in Hlen; lia|].
    cbn [app]. rewrite parse_value_Number by done.
    change (c :: l' ++ rest) with ((c :: l') ++ rest).
    rewrite scan_number_valid by (done || by apply ends_value_number).
    simpl in Hl. apply negb_true_iff, bool_decide_eq_false in Hl.
    rewrite decide_False in Hlit by done. by rewrite Hlit, str_lit.
  - injection Hout as <-. destruct fuel as [|f]; [simpl in Hlen; lia|].
    unfold json.quote. cbn [app]. rewrite <- app_assoc.
    rewrite parse_value_Str. cbn [app].
    rewrite unquote_quote by done. by rewrite str_lit.
  - rewrite indentedTab_Array in Hout.
    destruct (_ <=? d)%nat eqn:Hd; [done|].
    destruct (json.sequence _) as [|items] eqn:Hseq; [done|].
    apply sequence_inv in Hseq.
    destruct fuel as [|f]; [destruct items; injection Hout as <-; simpl in Hlen; lia|].
    destruct items as [|item items].
    + injection Hout as <-. destruct vs; [|done].
      cbn [app json.lit list_ascii_of_string]. rewrite parse_value_Array, Hd.
      reflexivity.
    + apply (inj inr) in Hout as <-. cbn [app]. rewrite parse_value_Array, Hd.
      rewrite <- !app_assoc. cbn [app].
      assert (vs ≠ []) as Hne by (by destruct vs).
      assert (starts_value (json.join (","%char :: lineTab (S d)) (item :: items)))
        as Hstart.
      { destruct vs as [|v vs]; [done|].
        rewrite !map_cons in Hseq. apply cons_eq_inv in Hseq as [Hitem _].
        apply indented_starts in Hitem. by apply join_starts. }
      rewrite skip_space_line, skip_space_value by done.
      pose proof (parse_elements_join vs IH d (item :: items) f rest) as Hpe.
      destruct (json.join _ _) as [|c2 J]; [done|].
      cbn [app] in Hpe |- *. destruct Hstart as (_ & -> & _).
      rewrite Hpe; [done..|].
      cbn [length] in Hlen. rewrite !length_app in Hlen.
      pose proof (lineTab_length (S d)). cbn [length] in *. lia.
  - rewrite indentedTab_Object in Hout.
    destruct (_ <=? d)%nat eqn:Hd; [done|].
    destruct (json.sequence _) as [|items] eqn:Hseq; [done|].
    apply sequence_inv in Hseq.
    destruct fuel as [|f]; [destruct items; injection Hout as <-; simpl in Hlen; lia|].
    destruct items as [|item items].
    + injection Hout as <-. destruct fs; [|done].
      cbn [app json.lit list_ascii_of_string]. rewrite parse_value_Object, Hd.
      reflexivity.
    + apply (inj inr) in Hout as <-. cbn [app]. rewrite parse_value_Object, Hd.
      rewrite <- !app_assoc. cbn [app].
      assert (fs ≠ []) as Hne by (by destruct fs).
      assert (starts_value (json.join (","%char :: lineTab (S d)) (item :: items)))
        as Hstart.
      { destruct fs as [|[k v] fs]; [done|].
        rewrite !map_cons in Hseq. apply cons_eq_inv in Hseq as [Hitem _].
        apply join_starts. destruct (indentedTab (S d) v); [done|].
        by injection Hitem as <-. }
      rewrite skip_space_line, skip_space_value by done.
      pose proof (parse_members_join fs IH d (item :: items) f rest) as Hpe.
      destruct (json.join _ _) as [|c2 J]; [done|].
      cbn [app] in Hpe |- *. destruct Hstart as (_ & _ & ->).
      rewrite Hpe; [done..|].
      cbn [length] in Hlen. rewrite !length_app in Hlen.
      pose proof (lineTab_length (S d)). cbn [length] in *. lia.
Qed.

(** [Unmarshal] gives back the value [MarshalIndent] encoded. *)
Lemma Unmarshal_MarshalIndent v out :
  Lossless v = true →
  json.MarshalIndent v "" (String json.tab "") = inr out →
  json.Unmarshal out = inr v.
Proof.
  intros Hl. unfold json.MarshalIndent.
  destruct (json.Marshal v); [done|].
  change (json.indented _ _ 0 v) with (indentedTab 0 v). intros Hout.
  unfold json.Unmarshal.
  pose proof (indented_starts _ _ _ Hout) as Hstart.
  rewrite <- (app_nil_r out) at 2.
  rewrite skip_space_value by done.
  rewrite (decodes_all v 0 out (S (length out)) []); done || lia.
Qed.

(** ** [ReadAll], step by step *)






Lemma Stat_find fs name :
  os.Stat fs name
  = match os.find fs name with
    | inl e => inl e
    | inr (os.File _) => inr (os.mkFileInfo false)
    | inr (os.Dir _) => inr (os.mkFileInfo true)
    end.
Proof. reflexivity. Qed.


(** A [Write] that returned no error ran all its steps. *)
Lemma Write_success c r v w w1 :
  Write c r v w = Returns None w1 →
  c ≠ "" ∧ r ≠ "" ∧
  held (driver w) Guard = Unlocked ∧
  held (driver w) (OfCollection c) = Unlocked ∧
  driver w1 = set_mutex (OfCollection c) Unlocked (driver w) ∧
  ∃ b fs1,
    json.MarshalIndent v "" (String json.tab "") = inr b
    ∧ os.MkdirAll (disk w) (collectionPath (driver w) c) = (fs1, None)
    ∧ os.WriteFile fs1 (recordPath (driver w) c r) b = (disk w1, None)
    ∧ trace w1
      = trace w ++ [EvLock Guard; EvUnlock Guard; EvLock (OfCollection c);
                    EvMkdirAll (collectionPath (driver w) c);
                    EvWriteFile (recordPath (driver w) c r) b;
                    EvUnlock (OfCollection c)].
Proof.
  intros [(_ & ? & _)|(Hc & Hr & Hg & Hl & Hd & evs & Htr & Hfs)]%Write_inv;
    [done|].
  do 5 (split; [done|]). simpl in Hfs. unfold recordPath, collectionPath in *.
  rewrite Join_nest in Hfs by by destruct r.
  destruct (os.MkdirAll _ _) as [fs1 [e|]] eqn:Hmk; simpl in Hfs;
    [by destruct Hfs|].
  destruct (json.MarshalIndent _ _ _) as [e|b]; [by destruct Hfs|].
  destruct Hfs as (Hres & Hdisk & ->). exists b, fs1.
  destruct (os.WriteFile fs1 _ b) as [fs2 e2] eqn:Hwf. simpl in *. by subst.
Qed.

(** [Write] returns no error when the names are plain, the locks are free,
    the root directory of the store is there, no file has the name of the
    collection, no directory has the name of the record, and the value can
    be encoded. *)
Lemma Write_succeeds c r v w es b :
  plain c → r ≠ "" → filepath.split r = [r] →
  held (driver w) Guard = Unlocked →
  held (driver w) (OfCollection c) = Unlocked →
  os.find (disk w) (dir (driver w)) = inr (os.Dir es) →
  (∀ data, es !! c ≠ Some (os.File data)) →
  (∀ es1 es2, es !! c = Some (os.Dir es1) →
              es1 !! (r +:+ ".json") ≠ Some (os.Dir es2)) →
  json.MarshalIndent v "" (String json.tab "") = inr b →
  ∃ w1, Write c r v w = Returns None w1.
Proof.
  intros Hc Hr Hsplit Hg Hl Hroot Hfile Hdir Hm.
  destruct (Write_returns c r v w Hg Hl) as (res & w1 & Hw).
  exists w1. rewrite Hw. f_equal.
  apply Write_inv in Hw as [(Hor & _)|(_ & _ & _ & _ & _ & evs & _ & Hfs)].
  { destruct Hc as (Hc & _). by destruct Hor. }
  simpl in Hfs. unfold collectionPath in Hfs.
  rewrite Join_nest in Hfs by by destruct r.
  assert (dir (driver w) ≠ "") as Hd.
  { intros Heq. unfold os.find in Hroot. by rewrite decide_True in Hroot. }
  unfold os.find in Hroot. rewrite decide_False in Hroot by done.
  pose proof (plain_json r Hsplit) as Hx.
  destruct (resolve_Join (disk w) (dir (driver w)) c _ Hc Hx) as [Hp2 Hp3].
  destruct (mkdirs_snoc _ _ _ c Hroot Hfile) as (n1 & Hmk & Hwalk).
  assert (os.MkdirAll (disk w) (filepath.Join [dir (driver w); c])
          = (os.mkFS n1 (os.cwd (disk w)), None)) as HM.
  { unfold os.MkdirAll, os.update.
    rewrite decide_False by (unfold filepath.Join; rewrite decide_False by done;
                             apply Clean_nonempty).
    by rewrite Hp2, Hmk. }
  rewrite HM in Hfs. simpl in Hfs. rewrite Hm in Hfs.
  destruct Hfs as (-> & _ & _).
  assert (∃ es1, default (os.Dir ∅) (es !! c) = os.Dir es1
                 ∧ ∀ es2, es1 !! (r +:+ ".json") ≠ Some (os.Dir es2))
    as (es1 & Hes1 & Hfree).
  { destruct (es !! c) as [[data|es1]|] eqn:Hlook; simpl.
    - by destruct (Hfile data).
    - exists es1. split; [done|]. intros es2. by apply Hdir.
    - exists ∅. split; [done|]. intros es2. by rewrite lookup_empty. }
  rewrite Hes1 in Hwalk.
  destruct (store_snoc _ _ _ _ b Hwalk Hfree) as (n2 & Hst).
  unfold os.WriteFile, os.update.
  rewrite decide_False by (unfold filepath.Join; rewrite decide_False by done;
                           apply Clean_nonempty).
  change (os.resolve (os.mkFS n1 (os.cwd (disk w))))
    with (os.resolve (disk w)).
  rewrite Hp3. cbn [os.root].
  change [c; r +:+ ".json"] with ([c] ++ [r +:+ ".json"]).
  by rewrite app_assoc, Hst.
Qed.

(** The store [New] returns without an error: its root path is there (a
    directory, when [New] made it) and no lock is held. *)
Lemma New_store d fs w :
  New d fs = (w, None) →
  dir (driver w) = filepath.Clean d
  ∧ (∀ m, held (driver w) m = Unlocked)
  ∧ ∃ n, os.find (disk w) (dir (driver w)) = inr n
         ∧ (disk w = fs ∨ ∃ es, n = os.Dir es).
Proof.
  unfold New. rewrite Stat_find.
  destruct (os.find fs (filepath.Clean d)) as [e|n] eqn:Hfind.
  - destruct (os.MkdirAll fs (filepath.Clean d)) as [fs1 err] eqn:Hmk.
    simpl. intros [= <- ->]. simpl.
    split; [done|]. split; [by intros [|c]|].
    destruct (MkdirAll_find _ _ _ Hmk) as [es Hes]. eauto.
  - assert ((mkWorld (mkDriver Unlocked ∅ (filepath.Clean d)) fs
               [EvStat (filepath.Clean d)], @None error) = (w, None) →
            dir (driver w) = filepath.Clean d
            ∧ (∀ m, held (driver w) m = Unlocked)
            ∧ ∃ n, os.find (disk w) (dir (driver w)) = inr n
                   ∧ (disk w = fs ∨ ∃ es, n = os.Dir es)) as Hcase.
    { intros [= <-]. simpl. split; [done|]. split; [by intros [|c]|]. eauto. }
    destruct n; exact Hcase.
Qed.

Lemma Returns_inj {A} (a b : A) w w' :
  Returns a w = Returns b w' → a = b ∧ w = w'.
Proof. by intros [= -> ->]. Qed.

Lemma held_set_mutex d c m :
  held d (OfCollection c) = Unlocked →
  held (set_mutex (OfCollection c) Unlocked d) m = held d m.
Proof.
  intros Hc. destruct m as [|c']; [done|]. simpl in *.
  destruct (decide (c = c')) as [->|Hne].
  - by rewrite lookup_insert_eq, Hc.
  - by rewrite lookup_insert_ne.
Qed.

(** ** The claims *)

(** C2.  [Write] with an empty collection name, or with an empty resource
    id, returns the error "missing collection or resource" in the world it
    was called in: the file system is as it was, and the trace has no new
    event, so no directory and no file was created, no call into package
    [os] was made and no lock was taken. *)
Theorem Write_rejects_empty_names (c r : string) (v : json.value) (w : World) :
  Write "" r v w = Returns (Some (Errorf "missing collection or resource")) w
  ∧ Write c "" v w = Returns (Some (Errorf "missing collection or resource")) w
  ∧ events (Write "" r v) w = [] ∧ events (Write c "" v) w = []
  ∧ disk (after (Write "" r v) w) = disk w
  ∧ disk (after (Write c "" v) w) = disk w.
Proof.
  assert (Write "" r v w
          = Returns (Some (Errorf "missing collection or resource")) w) as H1.
  { unfold Write. by rewrite decide_True by auto. }
  assert (Write c "" v w
          = Returns (Some (Errorf "missing collection or resource")) w) as H2.
  { unfold Write. by rewrite decide_True by auto. }
  unfold events, after. rewrite H1, H2, drop_all. done.
Qed.




(** C1, amended.  When [Write] returns no error for a value whose strings
    are well-formed UTF-8 and whose numbers are not the empty literal,
    [Read] of the same collection and resource returns no error and the
    value that was written; it changes neither the driver nor the disk. *)
Theorem Read_after_Write (c r : string) (v : json.value) (w w1 : World) :
  Write c r v w = Returns None w1 →
  Lossless v = true →
  ∃ w2, Read c r w1 = Returns (inr v) w2
        ∧ driver w2 = driver w1 ∧ disk w2 = disk w1.
Proof.
  intros (_ & _ & _ & _ & Hd & b & fs1 & Hm & _ & Hwf & _)%Write_success Hl.
  rewrite Read_eq. simpl.
  assert (recordPath (driver w1) c r = recordPath (driver w) c r) as ->.
  { unfold recordPath. by rewrite Hd. }
  rewrite Stat_find. unfold os.ReadFile.
  rewrite (WriteFile_find _ _ _ _ Hwf).
  rewrite (Unmarshal_MarshalIndent v b Hl Hm). eauto.
Qed.

(** C5, amended.  When [Write] returns no error, [Delete] of the same
    collection and resource returns no error, and [Read] then fails with
    the not-found error. *)
Theorem Read_after_Delete (c r : string) (v : json.value) (w w1 : World) :
  Write c r v w = Returns None w1 →
  ∃ w2 w3, Delete c r w1 = Returns None w2
           ∧ Read c r w2 = Returns (inl ErrNotExist) w3.
Proof.
  intros (_ & _ & Hg & Hl & Hd & b & fs1 & _ & _ & Hwf & _)%Write_success.
  destruct (WriteFile_Remove _ _ _ _ Hwf) as (fs3 & Hrm & Hgone).
  rewrite Delete_eq; [|by rewrite Hd..|].
  2:{ rewrite Hd. simpl. by rewrite lookup_insert_eq. }
  do 2 eexists. rewrite Read_eq. unfold recordPath in *. simpl.
  rewrite Hd. simpl. rewrite Hrm. split; [done|].
  cbn [disk driver dir fst snd]. by rewrite Stat_find, Hgone.
Qed.

(** C4.  A second [Write] of the same value under the same names returns
    what the first returned and leaves the disk as the first left it: the
    record file holds the same bytes after two writes as after one. *)
Theorem Write_twice (c r : string) (v : json.value) (w w1 : World)
    (res : option error) :
  Write c r v w = Returns res w1 →
  ∃ w2, Write c r v w1 = Returns res w2
        ∧ disk w2 = disk w1
        ∧ os.ReadFile (disk w2) (recordPath (driver w2) c r)
          = os.ReadFile (disk w1) (recordPath (driver w1) c r).
Proof.
  intros H1. pose proof H1 as H1'.
  apply Write_inv in H1' as [(_ & _ & ->)|(Hc & Hr & Hg & Hl & Hd & evs & Htr & Hfs)].
  { by exists w. }
  destruct (Write_returns c r v w1) as (res2 & w2 & H2).
  { by rewrite Hd. }
  { rewrite Hd. simpl. by rewrite lookup_insert_eq. }
  exists w2. pose proof H2 as H2'.
  apply Write_inv in H2' as [(Hor & _)|(_ & _ & _ & _ & Hd2 & evs2 & _ & Hfs2)];
    [by destruct Hor|].
  assert (collectionPath (driver w1) c = collectionPath (driver w) c) as Hcp.
  { unfold collectionPath. by rewrite Hd. }
  assert (recordPath (driver w2) c r = recordPath (driver w1) c r) as Hrp.
  { unfold recordPath. by rewrite Hd2. }
  simpl in Hfs, Hfs2. rewrite Hcp in Hfs2. rewrite Hrp.
  assert (res2 = res ∧ disk w2 = disk w1) as [-> Hdisk];
    [|by rewrite H2, Hdisk].
  destruct (os.MkdirAll (disk w) _) as [fs1 [e|]] eqn:Hmk; simpl in Hfs.
  - destruct Hfs as (-> & Hdisk & _). rewrite Hdisk in Hfs2.
    rewrite (MkdirAll_idem _ _ _ _ Hmk) in Hfs2. simpl in Hfs2.
    destruct Hfs2 as (-> & -> & _). done.
  - destruct (json.MarshalIndent _ _ _) as [e|b].
    + destruct Hfs as (-> & Hdisk & _). rewrite Hdisk in Hfs2.
      rewrite (MkdirAll_idem _ _ _ _ Hmk) in Hfs2. simpl in Hfs2.
      destruct Hfs2 as (-> & -> & _). done.
    + destruct (os.WriteFile fs1 _ b) as [fs2 e2] eqn:Hwf. simpl in Hfs.
      destruct Hfs as (-> & Hdisk & _). rewrite Hdisk in Hfs2.
      destruct e2 as [e|].
      * pose proof (WriteFile_fails _ _ _ _ _ Hwf) as ->.
        rewrite (MkdirAll_idem _ _ _ _ Hmk) in Hfs2. simpl in Hfs2.
        rewrite Hwf in Hfs2. simpl in Hfs2. by destruct Hfs2 as (-> & -> & _).
      * rewrite (MkdirAll_WriteFile _ _ _ _ _ _ Hmk Hwf) in Hfs2. simpl in Hfs2.
        rewrite (WriteFile_idem _ _ _ _ Hwf) in Hfs2. simpl in Hfs2.
        by destruct Hfs2 as (-> & -> & _).
Qed.

(** C9.  [Write] and [Delete] return whenever the guard and the lock of
    the collection are free.  Whenever one of them returns, with or without
    an error, every mutex of the driver is as it was before the call, and
    the locks the call took are the guard and the lock of the collection,
    each released after it was taken; [Write] takes none when it refuses an
    empty name. *)
Theorem locks_released (c r : string) (v : json.value) (w : World) :
  (held (driver w) Guard = Unlocked →
   held (driver w) (OfCollection c) = Unlocked →
   (∃ res w1, Write c r v w = Returns res w1)
   ∧ (∃ res w1, Delete c r w = Returns res w1))
  ∧ (∀ res w1, Write c r v w = Returns res w1 →
       (∀ m, held (driver w1) m = held (driver w) m)
       ∧ ∃ evs, trace w1 = trace w ++ evs
           ∧ (List.filter is_lock_event evs = []
              ∨ List.filter is_lock_event evs
                = [EvLock Guard; EvUnlock Guard;
                   EvLock (OfCollection c); EvUnlock (OfCollection c)]
                ∧ held (driver w1) Guard = Unlocked
                ∧ held (driver w1) (OfCollection c) = Unlocked))
  ∧ (∀ res w1, Delete c r w = Returns res w1 →
       (∀ m, held (driver w1) m = held (driver w) m)
       ∧ ∃ evs, trace w1 = trace w ++ evs
           ∧ List.filter is_lock_event evs
             = [EvLock Guard; EvUnlock Guard;
                EvLock (OfCollection c); EvUnlock (OfCollection c)]
           ∧ held (driver w1) Guard = Unlocked
           ∧ held (driver w1) (OfCollection c) = Unlocked).
Proof.
  split; [|split].
  - intros Hg Hl. split; [by apply Write_returns|].
    rewrite Delete_eq by done. eauto.
  - intros res w1 [(_ & _ & ->)|(_ & _ & Hg & Hl & Hd & evs & Htr & Hfs)]%Write_inv.
    { split; [done|]. exists []. rewrite app_nil_r. auto. }
    split; [intros m; rewrite Hd; by apply held_set_mutex|].
    eexists. split; [exact Htr|]. right.
    rewrite !Hd, !held_set_mutex by done. split; [|done].
    simpl in Hfs. destruct (os.MkdirAll _ _).2.
    { by destruct Hfs as (_ & _ & ->). }
    destruct (json.MarshalIndent _ _ _).
    { by destruct Hfs as (_ & _ & ->). }
    by destruct Hfs as (_ & _ & ->).
  - intros res w1 H. pose proof H as [Hg Hl]%Delete_inv.
    rewrite Delete_eq in H by done. apply Returns_inj in H as [<- <-].
    cbn [driver trace]. rewrite !held_set_mutex by done.
    split; [intros m; by apply held_set_mutex|].
    eexists. split; [done|]. done.
Qed.


(** ** The claims at work *)

(** C1 as it was stated fails: a resource id may name a directory that is
    not there.  In the store of [main], [Write("users", "a/b", john)]
    creates [data/users] and fails to create [data/users/a/b.json]; nothing
    is stored, and [Read] finds nothing. *)
Lemma Write_fails_below_missing_directory :
  "users" ≠ "" ∧ "a/b" ≠ ""
  ∧ (∃ b, json.MarshalIndent john "" (String json.tab "") = inr b)
  ∧ Lossless john = true
  ∧ Write "users" "a/b" john dataStore
    = Returns (Some ErrNotExist) (after (Write "users" "a/b" john) dataStore)
  ∧ Read "users" "a/b" (after (Write "users" "a/b" john) dataStore)
    = Returns (inl ErrNotExist)
        (after (Read "users" "a/b") (after (Write "users" "a/b" john) dataStore))
  ∧ ¬ (∃ w1 w2, Write "users" "a/b" john dataStore = Returns None w1
                ∧ Read "users" "a/b" w1 = Returns (inr john) w2).
Proof.
  split; [done|]. split; [done|]. split; [by eexists; vm_compute|].
  split; [by vm_compute|].
  assert (Write "users" "a/b" john dataStore
          = Returns (Some ErrNotExist)
              (after (Write "users" "a/b" john) dataStore)) as H
    by by vm_compute.
  split; [done|]. split; [by vm_compute|].
  intros (w1 & w2 & Hw & _). rewrite H in Hw. discriminate Hw.
Qed.

(** The two other ways a written value differs from the value read: the
    zero [json.Number] is written as [0], and a byte that is no UTF-8 is
    written as U+FFFD. *)
Lemma empty_Number_reads_as_0 :
  Read "n" "zero" (after (Write "n" "zero" (json.Number "")) dataStore)
  = Returns (inr (json.Number "0"))
      (after (Read "n" "zero") (after (Write "n" "zero" (json.Number "")) dataStore)).
Proof. by vm_compute. Qed.

Lemma invalid_UTF8_reads_as_replacement :
  Read "s" "byte"
    (after (Write "s" "byte" (json.Str (String "255" ""))) dataStore)
  = Returns (inr (json.Str (String "239" (String "191" (String "189" "")))))
      (after (Read "s" "byte")
         (after (Write "s" "byte" (json.Str (String "255" ""))) dataStore)).
Proof. by vm_compute. Qed.

Lemma Read_after_Write_john :
  ∃ w2, Read "users" "John Doe" johnStore = Returns (inr john) w2
        ∧ driver w2 = driver johnStore ∧ disk w2 = disk johnStore.
Proof.
  apply (Read_after_Write "users" "John Doe" john dataStore johnStore);
    vm_compute; reflexivity.
Defined.

(** The same round trip with the conditions on the names and on the store
    rather than on what [Write] returned: plain names, free locks, the root
    directory there, no file in the place of the collection and no
    directory in the place of the record. *)
Lemma Write_then_Read_plain_names c r v w es b :
  plain c → r ≠ "" → filepath.split r = [r] →
  held (driver w) Guard = Unlocked →
  held (driver w) (OfCollection c) = Unlocked →
  os.find (disk w) (dir (driver w)) = inr (os.Dir es) →
  (∀ data, es !! c ≠ Some (os.File data)) →
  (∀ es1 es2, es !! c = Some (os.Dir es1) →
              es1 !! (r +:+ ".json") ≠ Some (os.Dir es2)) →
  json.MarshalIndent v "" (String json.tab "") = inr b →
  Lossless v = true →
  ∃ w1 w2, Write c r v w = Returns None w1
           ∧ Read c r w1 = Returns (inr v) w2.
Proof.
  intros Hc Hr Hs Hg Hl Hroot Hfile Hdir Hm Hv.
  destruct (Write_succeeds c r v w es b) as [w1 Hw]; [done..|].
  exists w1. pose proof Hw as Hw'.
  apply Write_success in Hw' as (_ & _ & _ & _ & Hd & b' & fs1 & Hm' & _ & Hwf & _).
  rewrite Read_eq. simpl.
  assert (recordPath (driver w1) c r = recordPath (driver w) c r) as ->.
  { unfold recordPath. by rewrite Hd. }
  rewrite Stat_find. unfold os.ReadFile.
  rewrite (WriteFile_find _ _ _ _ Hwf).
  rewrite (Unmarshal_MarshalIndent v b' Hv Hm'). eauto.
Qed.

Lemma Write_twice_john :
  ∃ w2, Write "users" "John Doe" john johnStore = Returns None w2
        ∧ disk w2 = disk johnStore
        ∧ os.ReadFile (disk w2) (recordPath (driver w2) "users" "John Doe")
          = os.ReadFile (disk johnStore)
              (recordPath (driver johnStore) "users" "John Doe").
Proof.
  apply (Write_twice "users" "John Doe" john dataStore johnStore None).
  vm_compute; reflexivity.
Defined.

(** C5 as it was stated fails where the path of the record is a directory
    that holds something: [Write] cannot replace it, [Delete] cannot remove
    it, and [Read] fails with "is a directory", which is no not-found
    error. *)
Lemma Delete_keeps_directory :
  let w := after (Write "users/x.json" "k" john) dataStore in
  let w1 := after (Write "users" "x" john) w in
  let w2 := after (Delete "users" "x") w1 in
  "users" ≠ "" ∧ "x" ≠ ""
  ∧ (∃ b, json.MarshalIndent john "" (String json.tab "") = inr b)
  ∧ Write "users" "x" john w = Returns (Some ErrIsDir) w1
  ∧ Delete "users" "x" w1 = Returns (Some ErrNotEmpty) w2
  ∧ Read "users" "x" w2 = Returns (inl ErrIsDir) (after (Read "users" "x") w2)
  ∧ IsNotExist ErrIsDir = false.
Proof.
  split; [done|]. split; [done|]. split; [by eexists; vm_compute|].
  repeat split; by vm_compute.
Qed.

Lemma Read_after_Delete_john :
  ∃ w2 w3, Delete "users" "John Doe" johnStore = Returns None w2
           ∧ Read "users" "John Doe" w2 = Returns (inl ErrNotExist) w3.
Proof.
  apply (Read_after_Delete "users" "John Doe" john dataStore johnStore).
  vm_compute; reflexivity.
Defined.




(** The bytes of the record of John Doe, and its path. *)
Lemma john_on_disk :
  recordPath (driver johnStore) "users" "John Doe" = "data/users/John Doe.json"
  ∧ os.ReadFile (disk johnStore) "data/users/John Doe.json"
    = inr (typed
        ("{|" +:+
         "~'name': 'John Doe',|" +:+
         "~'age': 23,|" +:+
         "~'contact': '9876543210',|" +:+
         "~'company': 'Tech Solutions',|" +:+
         "~'address': {|" +:+
         "~~'city': 'Bangalore',|" +:+
         "~~'state': 'Karnataka',|" +:+
         "~~'country': 'India',|" +:+
         "~~'pincode': 560001|" +:+
         "~}|" +:+
         "}")).
Proof. by vm_compute. Qed.

Lemma locks_released_john :
  ((∃ res w1, Write "users" "John Doe" john dataStore = Returns res w1)
   ∧ (∃ res w1, Delete "users" "John Doe" dataStore = Returns res w1))
  ∧ ((∀ m, held (driver johnStore) m = held (driver dataStore) m)
     ∧ ∃ evs, trace johnStore = trace dataStore ++ evs
         ∧ (List.filter is_lock_event evs = []
            ∨ List.filter is_lock_event evs
              = [EvLock Guard; EvUnlock Guard;
                 EvLock (OfCollection "users"); EvUnlock (OfCollection "users")]
              ∧ held (driver johnStore) Guard = Unlocked
              ∧ held (driver johnStore) (OfCollection "users") = Unlocked))
  ∧ ((∀ m, held (driver (after (Delete "users" "John Doe") johnStore)) m
           = held (driver johnStore) m)
     ∧ ∃ evs, trace (after (Delete "users" "John Doe") johnStore)
              = trace johnStore ++ evs
         ∧ List.filter is_lock_event evs
           = [EvLock Guard; EvUnlock Guard;
              EvLock (OfCollection "users"); EvUnlock (OfCollection "users")]
         ∧ held (driver (after (Delete "users" "John Doe") johnStore)) Guard
           = Unlocked
         ∧ held (driver (after (Delete "users" "John Doe") johnStore))
             (OfCollection "users") = Unlocked).
Proof.
  split; [|split].
  - apply (proj1 (locks_released "users" "John Doe" john dataStore));
      vm_compute; reflexivity.
  - apply (proj1 (proj2 (locks_released "users" "John Doe" john dataStore))
             None johnStore).
    vm_compute; reflexivity.
  - apply (proj2 (proj2 (locks_released "users" "John Doe" john johnStore))
             None (after (Delete "users" "John Doe") johnStore)).
    vm_compute; reflexivity.
Defined.


(** The run of [main] in an empty file system: two records remain, those
    of John Doe and Rakshit, and they decode to the values written. *)
Lemma main_leaves_two_records :
  ∃ w, main emptyDisk = Returns [inr john; inr rakshit] w
       ∧ os.ReadDir (disk w) "data/users"
         = (["John Doe.json"; "Rakshit.json"], None)
       ∧ os.ReadDir (disk w) "data" = (["users"], None)
       ∧ mutex (driver w) = Unlocked
       ∧ mutexes (driver w) = {["users" := Unlocked]}.
Proof. eexists. split; [by vm_compute|]. repeat split; by vm_compute. Qed.

(** C3 fails on the code: [Delete] checks neither name.  With the empty
    resource id it takes the guard and the lock of the collection and calls
    [Remove] on [<dir>/<collection>/.json]: in a store where that file
    exists ([Write("users", "./", v)] makes it) the file is removed and
    [Delete] returns no error; where it does not exist [Delete] returns the
    not-found error of [Remove], not the error [Write] returns for an empty
    name.  The empty collection name is taken the same way. *)
Lemma Delete_takes_empty_names :
  let w := after (Write "users" "./" john) dataStore in
  os.ReadFile (disk w) "data/users/.json" = inr (encoded john)
  ∧ Delete "users" "" w = Returns None (after (Delete "users" "") w)
  ∧ os.ReadFile (disk (after (Delete "users" "") w)) "data/users/.json"
    = inl ErrNotExist
  ∧ events (Delete "users" "") w
    = [EvLock Guard; EvUnlock Guard; EvLock (OfCollection "users");
       EvRemove "data/users/.json"; EvUnlock (OfCollection "users")]
  ∧ Delete "" "x" dataStore
    = Returns (Some ErrNotExist) (after (Delete "" "x") dataStore)
  ∧ events (Delete "" "x") dataStore
    = [EvLock Guard; EvUnlock Guard; EvLock (OfCollection "");
       EvRemove "data/x.json"; EvUnlock (OfCollection "")]
  ∧ Write "" "x" john dataStore
    = Returns (Some (Errorf "missing collection or resource")) dataStore.
Proof. repeat split; by vm_compute. Qed.

(** [Delete] never refuses a name: whenever it returns, it has called
    [Remove] on the path of the record and returns what [Remove] returned. *)
Lemma Delete_calls_Remove c r w res w1 :
  Delete c r w = Returns res w1 →
  res = (os.Remove (disk w) (recordPath (driver w) c r)).2
  ∧ disk w1 = (os.Remove (disk w) (recordPath (driver w) c r)).1
  ∧ EvRemove (recordPath (driver w) c r) ∈ trace w1.
Proof.
  intros H. pose proof H as [Hg Hl]%Delete_inv.
  rewrite Delete_eq in H by done. apply Returns_inj in H as [<- <-].
  cbn [disk trace]. repeat split; [done..|]. set_solver.
Qed.

(** * More of the driver *)

(** ** The tree outside the path of a call *)

(** [MkdirAll] keeps every file. *)
Lemma mkdirs_keeps_file n p n' q b :
  os.mkdirs n p = inr n' → os.walk n q = inr (os.File b) →
  os.walk n' q = inr (os.File b).
Proof.
  revert n n' q. induction p as [|x p IH]; intros n n' q Hm Hq.
  - destruct n; inversion Hm; by subst.
  - destruct n as [|es]; [done|]. simpl in Hm.
    destruct (os.mkdirs (default (os.Dir ∅) (es !! x)) p) as [|c] eqn:Hc; [done|].
    inversion Hm; subst. destruct q as [|y q]; [done|].
    rewrite walk_cons in Hq. rewrite walk_cons.
    destruct (es !! y) as [cy|] eqn:Hy; [|done].
    destruct (decide (x = y)) as [->|Hxy].
    + rewrite lookup_insert_eq. rewrite Hy in Hc. simpl in Hc. by apply (IH cy).
    + by rewrite lookup_insert_ne, Hy.
Qed.

(** [WriteFile] keeps every file but the one it writes. *)
Lemma store_keeps_file n p data n' q b :
  os.store n p data = inr n' → os.walk n q = inr (os.File b) → q ≠ p →
  os.walk n' q = inr (os.File b).
Proof.
  revert n n' q. induction p as [|x p IH]; intros n n' q Hs Hq Hne; [done|].
  destruct n as [|es]; [done|]. destruct q as [|y q]; [done|].
  rewrite walk_cons in Hq. destruct (es !! y) as [cy|] eqn:Hy; [|done].
  destruct p as [|z p].
  - simpl in Hs. destruct (decide (x = y)) as [->|Hxy].
    + rewrite Hy in Hs. destruct cy as [d|es']; [|done].
      destruct q; [done|]. done.
    + assert (n' = os.Dir (<[x := os.File data]> es)) as ->.
      { destruct (es !! x) as [[]|]; by inversion Hs. }
      by rewrite walk_cons, lookup_insert_ne, Hy.
  - rewrite store_cons in Hs.
    destruct (es !! x) as [c|] eqn:Hx; [|done].
    destruct (os.store c (z :: p) data) as [|c'] eqn:Hc; [done|].
    inversion Hs; subst. rewrite walk_cons.
    destruct (decide (x = y)) as [->|Hxy].
    + rewrite lookup_insert_eq. rewrite Hy in Hx. inversion Hx; subst.
      apply (IH c); [done..|]. by intros ->.
    + by rewrite lookup_insert_ne, Hy.
Qed.

Lemma walk_empty_dir es q n :
  dom es = ∅ → q ≠ [] → os.walk (os.Dir es) q ≠ inr n.
Proof.
  intros Hdom Hq. destruct q as [|y q]; [done|]. rewrite walk_cons.
  apply dom_empty_inv_L in Hdom as ->. by rewrite lookup_empty.
Qed.

(** [Remove] keeps every file but the one it removes. *)
Lemma unlink_keeps_file n p n' q b :
  os.unlink n p = inr n' → os.walk n q = inr (os.File b) → q ≠ p →
  os.walk n' q = inr (os.File b).
Proof.
  revert n n' q. induction p as [|x p IH]; intros n n' q Hu Hq Hne; [done|].
  destruct n as [|es]; [done|]. destruct q as [|y q]; [done|].
  rewrite walk_cons in Hq. destruct (es !! y) as [cy|] eqn:Hy; [|done].
  destruct p as [|z p].
  - simpl in Hu. destruct (es !! x) as [c|] eqn:Hx; [|done].
    destruct (decide (x = y)) as [->|Hxy].
    + rewrite Hy in Hx. inversion Hx; subst. destruct c as [d|es'].
      * destruct q; [done|]. done.
      * case_decide as Hdom; [|done].
        destruct q as [|y' q]; [done|].
        by destruct (walk_empty_dir es' (y' :: q) (os.File b) Hdom).
    + assert (n' = os.Dir (delete x es)) as ->.
      { destruct c; [by inversion Hu|]. case_decide; by inversion Hu. }
      by rewrite walk_cons, lookup_delete_ne, Hy.
  - rewrite unlink_cons in Hu.
    destruct (es !! x) as [c|] eqn:Hx; [|done].
    destruct (os.unlink c (z :: p)) as [|c'] eqn:Hc; [done|].
    inversion Hu; subst. rewrite walk_cons.
    destruct (decide (x = y)) as [->|Hxy].
    + rewrite lookup_insert_eq. rewrite Hy in Hx. inversion Hx; subst.
      apply (IH c); [done..|]. by intros ->.
    + by rewrite lookup_insert_ne, Hy.
Qed.

(** What [Remove] removed is gone. *)
Lemma unlink_gone n p n' :
  os.unlink n p = inr n' → os.walk n' p = inl ErrNotExist.
Proof.
  revert n n'. induction p as [|x p IH]; intros n n' Hu; [done|].
  destruct n as [|es]; [done|]. destruct p as [|z p].
  - simpl in Hu. destruct (es !! x) as [c|] eqn:Hx; [|done].
    assert (n' = os.Dir (delete x es)) as ->.
    { destruct c; [by inversion Hu|]. case_decide; by inversion Hu. }
    by rewrite walk_cons, lookup_delete_eq.
  - rewrite unlink_cons in Hu.
    destruct (es !! x) as [c|] eqn:Hx; [|done].
    destruct (os.unlink c (z :: p)) as [|c'] eqn:Hc; [done|].
    inversion Hu; subst. rewrite walk_cons, lookup_insert_eq. by apply (IH c).
Qed.

(** [Remove] fails as the walk to its path fails. *)
Lemma walk_fails_unlink n p e :
  os.walk n p = inl e → os.unlink n p = inl e.
Proof.
  revert n. induction p as [|x p IH]; intros n Hw; [done|].
  destruct n as [|es]; [done|]. rewrite walk_cons in Hw.
  destruct p as [|z p].
  - simpl. by destruct (es !! x).
  - rewrite unlink_cons. destruct (es !! x) as [c|]; [|done].
    by rewrite (IH c).
Qed.

Lemma ReadFile_walk fs q b :
  os.ReadFile fs q = inr b
  ↔ q ≠ "" ∧ os.walk (os.root fs) (os.resolve fs q) = inr (os.File b).
Proof.
  unfold os.ReadFile, os.find. case_decide as Hq.
  - split; [done|]. by intros [? _].
  - destruct (os.walk _ _) as [e|[d|es]]; split;
      try done; try (by intros [_ [=]]).
    + intros [= ->]. done.
    + by intros [_ [= ->]].
Qed.

Lemma update_cwd fs name f fs' err :
  os.update fs name f = (fs', err) → os.cwd fs' = os.cwd fs.
Proof.
  unfold os.update. case_decide; [by intros [= <- _]|].
  destruct (f _ _); by intros [= <- _].
Qed.

Lemma resolve_cwd fs fs' q :
  os.cwd fs' = os.cwd fs → os.resolve fs' q = os.resolve fs q.
Proof. unfold os.resolve. by intros ->. Qed.

Lemma MkdirAll_keeps_file fs path fs' err q b :
  os.MkdirAll fs path = (fs', err) →
  os.ReadFile fs q = inr b → os.ReadFile fs' q = inr b.
Proof.
  intros Hm. pose proof (update_cwd _ _ _ _ _ Hm) as Hcwd.
  rewrite !ReadFile_walk, (resolve_cwd _ _ _ Hcwd). intros [Hq Hw].
  split; [done|]. revert Hm. unfold os.MkdirAll, os.update.
  case_decide; [by intros [= <- _]|].
  destruct (os.mkdirs _ _) as [|n'] eqn:Hmk; intros [= <- _]; [done|].
  simpl. by apply (mkdirs_keeps_file _ _ _ _ _ Hmk).
Qed.

Lemma WriteFile_keeps_file fs name data fs' err q b :
  os.WriteFile fs name data = (fs', err) →
  os.ReadFile fs q = inr b → os.resolve fs q ≠ os.resolve fs name →
  os.ReadFile fs' q = inr b.
Proof.
  intros Hm. pose proof (update_cwd _ _ _ _ _ Hm) as Hcwd.
  rewrite !ReadFile_walk, (resolve_cwd _ _ _ Hcwd). intros [Hq Hw] Hne.
  split; [done|]. revert Hm. unfold os.WriteFile, os.update.
  case_decide; [by intros [= <- _]|].
  destruct (os.store _ _ _) as [|n'] eqn:Hst; intros [= <- _]; [done|].
  simpl. by apply (store_keeps_file _ _ _ _ _ _ Hst).
Qed.

Lemma Remove_keeps_file fs name fs' err q b :
  os.Remove fs name = (fs', err) →
  os.ReadFile fs q = inr b → os.resolve fs q ≠ os.resolve fs name →
  os.ReadFile fs' q = inr b.
Proof.
  intros Hm. pose proof (update_cwd _ _ _ _ _ Hm) as Hcwd.
  rewrite !ReadFile_walk, (resolve_cwd _ _ _ Hcwd). intros [Hq Hw] Hne.
  split; [done|]. revert Hm. unfold os.Remove, os.update.
  case_decide; [by intros [= <- _]|].
  destruct (os.unlink _ _) as [|n'] eqn:Hst; intros [= <- _]; [done|].
  simpl. by apply (unlink_keeps_file _ _ _ _ _ Hst).
Qed.

(** What [Read] returns when the file of the record is there. *)
Lemma Read_of_file c r w b :
  os.ReadFile (disk w) (recordPath (driver w) c r) = inr b →
  Read c r w
  = Returns (json.Unmarshal b)
      (mkWorld (driver w) (disk w)
         (trace w ++ [EvStat (recordPath (driver w) c r);
                      EvReadFile (recordPath (driver w) c r)])).
Proof.
  intros Hb. rewrite Read_eq. cbn zeta. rewrite Hb, Stat_find.
  revert Hb. unfold os.ReadFile.
  by destruct (os.find _ _) as [|[]].
Qed.

(** What [Write] did to the disk when it returned. *)
Lemma Write_disk c r v w res w1 :
  Write c r v w = Returns res w1 →
  disk w1 = disk w
  ∨ ∃ fs1 err1, os.MkdirAll (disk w) (collectionPath (driver w) c) = (fs1, err1)
      ∧ (disk w1 = fs1
         ∨ ∃ b err2, os.WriteFile fs1 (recordPath (driver w) c r) b
                     = (disk w1, err2)).
Proof.
  intros [(_ & _ & ->)|(_ & _ & _ & _ & _ & evs & _ & Hfs)]%Write_inv;
    [by left|].
  right. simpl in Hfs. unfold recordPath, collectionPath in *.
  rewrite Join_nest in Hfs by by destruct r.
  destruct (os.MkdirAll _ _) as [fs1 err1] eqn:Hmk. exists fs1, err1.
  split; [done|]. simpl in Hfs. destruct err1 as [e|].
  { left. by destruct Hfs as (_ & ? & _). }
  destruct (json.MarshalIndent _ _ _) as [e|b].
  { left. by destruct Hfs as (_ & ? & _). }
  right. exists b, (os.WriteFile fs1 (filepath.Join [dir (driver w); c; r +:+ ".json"]) b).2.
  destruct Hfs as (_ & -> & _). by destruct (os.WriteFile _ _ _).
Qed.

(** ** One record at a time *)

(** X1.  [Write] changes no file but the one of its record: a file read
    at a path that does not lead to the record file holds the same bytes
    when [Write] has returned, with or without an error; and a [Read] of
    another record that returned a value returns it again. *)
Theorem Write_keeps_other_files (c r : string) (v : json.value)
    (w w1 : World) (res : option error) (q : string) (b : list ascii) :
  Write c r v w = Returns res w1 →
  os.ReadFile (disk w) q = inr b →
  os.resolve (disk w) q ≠ os.resolve (disk w) (recordPath (driver w) c r) →
  os.ReadFile (disk w1) q = inr b
  ∧ ∀ c' r', q = recordPath (driver w) c' r' →
             ∃ w2, Read c' r' w1 = Returns (json.Unmarshal b) w2.
Proof.
  intros Hw Hq Hne.
  assert (os.ReadFile (disk w1) q = inr b) as Hq1.
  { destruct (Write_disk _ _ _ _ _ _ Hw)
      as [->|(fs1 & err1 & Hmk & [->|(b' & err2 & Hwf)])]; [done|..].
    - by apply (MkdirAll_keeps_file _ _ _ _ _ _ Hmk).
    - apply (WriteFile_keeps_file _ _ _ _ _ _ _ Hwf).
      + by apply (MkdirAll_keeps_file _ _ _ _ _ _ Hmk).
      + by rewrite !(resolve_cwd _ _ _ (update_cwd _ _ _ _ _ Hmk)). }
  split; [done|]. intros c' r' ->. eexists. apply Read_of_file.
  assert (dir (driver w1) = dir (driver w)) as Hdir.
  { apply Write_inv in Hw as [(_ & _ & ->)|(_ & _ & _ & _ & -> & _)]; done. }
  unfold recordPath in *. by rewrite Hdir.
Qed.

(** X2.  [Delete] changes no file but the one of its record. *)
Theorem Delete_keeps_other_files (c r : string) (w w1 : World)
    (res : option error) (q : string) (b : list ascii) :
  Delete c r w = Returns res w1 →
  os.ReadFile (disk w) q = inr b →
  os.resolve (disk w) q ≠ os.resolve (disk w) (recordPath (driver w) c r) →
  os.ReadFile (disk w1) q = inr b
  ∧ ∀ c' r', q = recordPath (driver w) c' r' →
             ∃ w2, Read c' r' w1 = Returns (json.Unmarshal b) w2.
Proof.
  intros Hd Hq Hne. pose proof Hd as [Hg Hl]%Delete_inv.
  rewrite Delete_eq in Hd by done. apply Returns_inj in Hd as [_ <-].
  cbn [disk driver].
  assert (os.ReadFile (os.Remove (disk w) (recordPath (driver w) c r)).1 q
          = inr b) as Hq1.
  { destruct (os.Remove _ _) as [fs1 err] eqn:Hrm.
    by apply (Remove_keeps_file _ _ _ _ _ _ Hrm). }
  split; [done|]. intros c' r' ->. eexists. apply Read_of_file.
  cbn [disk driver]. unfold recordPath in *. by destruct (driver w).
Qed.

Lemma Remove_fails fs name e :
  os.find fs name = inl e → os.Remove fs name = (fs, Some e).
Proof.
  unfold os.find, os.Remove, os.update. case_decide; [by intros [= <-]|].
  intros Hw. by rewrite (walk_fails_unlink _ _ _ Hw).
Qed.

Lemma Remove_gone fs name fs' :
  os.Remove fs name = (fs', None) → os.find fs' name = inl ErrNotExist.
Proof.
  unfold os.Remove, os.update, os.find. case_decide; [done|].
  destruct (os.unlink _ _) as [|n'] eqn:Hu; [done|]. intros [= <-].
  rewrite (resolve_cwd fs (os.mkFS n' (os.cwd fs)) name eq_refl).
  by apply (unlink_gone _ _ _ Hu).
Qed.

(** X3.  [Delete] of a record whose file cannot be reached fails with the
    error of the walk to it, the not-found error when the file or its
    collection is missing, and leaves the disk as it was; the locks it
    took are released. *)
Theorem Delete_of_missing_record (c r : string) (w : World) (e : error) :
  held (driver w) Guard = Unlocked →
  held (driver w) (OfCollection c) = Unlocked →
  os.find (disk w) (recordPath (driver w) c r) = inl e →
  ∃ w1, Delete c r w = Returns (Some e) w1
        ∧ disk w1 = disk w
        ∧ ∀ m, held (driver w1) m = held (driver w) m.
Proof.
  intros Hg Hl Hfind. rewrite Delete_eq by done.
  rewrite (Remove_fails _ _ _ Hfind). eexists. split; [done|].
  split; [done|]. intros m. cbn [driver]. by apply held_set_mutex.
Qed.

(** X4.  A [Delete] that returned no error has removed the record: the
    same [Delete] again fails with the not-found error and changes
    nothing, and so does a [Read]. *)
Theorem Delete_twice (c r : string) (w w1 : World) :
  Delete c r w = Returns None w1 →
  ∃ w2 w3, Delete c r w1 = Returns (Some ErrNotExist) w2
           ∧ disk w2 = disk w1
           ∧ Read c r w1 = Returns (inl ErrNotExist) w3.
Proof.
  intros Hd. pose proof Hd as [Hg Hl]%Delete_inv.
  rewrite Delete_eq in Hd by done. apply Returns_inj in Hd as [Hres <-].
  set (p := recordPath (driver w) c r) in *.
  destruct (os.Remove (disk w) p) as [fs1 err] eqn:Hrm. simpl in Hres.
  subst err. pose proof (Remove_gone _ _ _ Hrm) as Hgone.
  assert (recordPath (set_mutex (OfCollection c) Unlocked (driver w)) c r = p)
    as Hp by (by destruct (driver w)).
  do 2 eexists. split; [|split].
  - rewrite Delete_eq.
    + cbn [disk driver fst]. rewrite Hp, (Remove_fails _ _ _ Hgone). done.
    + done.
    + cbn [driver held set_mutex mutexes]. by rewrite lookup_insert_eq.
  - done.
  - rewrite Read_eq. cbn [disk driver fst]. cbn zeta. rewrite Hp.
    by rewrite Stat_find, Hgone.
Qed.

Lemma Write_keeps_other_files_john :
  os.ReadFile (disk twoStore) "data/users/John Doe.json" = inr (encoded john)
  ∧ ∀ c' r', "data/users/John Doe.json" = recordPath (driver johnStore) c' r' →
             ∃ w2, Read c' r' twoStore
                   = Returns (json.Unmarshal (encoded john)) w2.
Proof.
  apply (Write_keeps_other_files "users" "Rakshit" rakshit johnStore twoStore
           None "data/users/John Doe.json" (encoded john)).
  - vm_compute; reflexivity.
  - vm_compute; reflexivity.
  - vm_compute; discriminate.
Defined.

Lemma Delete_keeps_other_files_john :
  os.ReadFile (disk (after (Delete "users" "Rakshit") twoStore))
    "data/users/John Doe.json" = inr (encoded john)
  ∧ ∀ c' r', "data/users/John Doe.json" = recordPath (driver twoStore) c' r' →
             ∃ w2, Read c' r' (after (Delete "users" "Rakshit") twoStore)
                   = Returns (json.Unmarshal (encoded john)) w2.
Proof.
  apply (Delete_keeps_other_files "users" "Rakshit" twoStore
           (after (Delete "users" "Rakshit") twoStore)
           None "data/users/John Doe.json" (encoded john)).
  - vm_compute; reflexivity.
  - vm_compute; reflexivity.
  - vm_compute; discriminate.
Defined.

Lemma Delete_of_missing_record_alice :
  ∃ w1, Delete "users" "Alice Smith" johnStore = Returns (Some ErrNotExist) w1
        ∧ disk w1 = disk johnStore
        ∧ ∀ m, held (driver w1) m = held (driver johnStore) m.
Proof.
  apply (Delete_of_missing_record "users" "Alice Smith" johnStore ErrNotExist);
    vm_compute; reflexivity.
Defined.

Lemma Delete_twice_john :
  ∃ w2 w3,
    Delete "users" "John Doe" (after (Delete "users" "John Doe") johnStore)
    = Returns (Some ErrNotExist) w2
    ∧ disk w2 = disk (after (Delete "users" "John Doe") johnStore)
    ∧ Read "users" "John Doe" (after (Delete "users" "John Doe") johnStore)
      = Returns (inl ErrNotExist) w3.
Proof.
  apply (Delete_twice "users" "John Doe" johnStore
           (after (Delete "users" "John Doe") johnStore)).
  vm_compute; reflexivity.
Defined.

(** ** [New] *)

Lemma Clean_idem p : filepath.Clean (filepath.Clean p) = filepath.Clean p.
Proof.
  destruct (decide (p = "")) as [->|Hp]; [reflexivity|].
  pose proof (Clean_nonempty p) as Hq. pose proof (IsAbs_Clean p Hp) as Habs.
  unfold filepath.Clean at 1. rewrite decide_False by done.
  rewrite Habs. unfold filepath.components.
  rewrite Clean_fold; [|done|by intros ->].
  unfold filepath.Clean, filepath.components.
  by rewrite (decide_False (P := p = "")).
Qed.

Lemma mkdirs_through_file n p q b :
  os.walk n p = inr (os.File b) → os.mkdirs n (p ++ q) = inl ErrNotDir.
Proof.
  revert n. induction p as [|x p IH]; intros n Hw.
  - simpl in Hw. inversion Hw; subst. by destruct q.
  - destruct n as [|es]; [done|]. rewrite walk_cons in Hw.
    destruct (es !! x) as [c|] eqn:Hx; [|done].
    rewrite <- app_comm_cons. cbn [os.mkdirs]. rewrite Hx. simpl.
    by rewrite (IH c).
Qed.

(** X5.  [New] returns a driver for the cleaned path, with an empty lock
    table and a free guard.  When it returns no error the path is there:
    either it was there and the disk is untouched, or it was not and is a
    directory now.  When it returns an error the disk is untouched.  In
    every case each file that was on the disk is still there. *)
Theorem New_opens_store (d : string) (fs : os.FS) (w : World)
    (err : option error) :
  New d fs = (w, err) →
  driver w = mkDriver Unlocked ∅ (filepath.Clean d)
  ∧ match err with
    | None =>
        ∃ n, os.find (disk w) (filepath.Clean d) = inr n
             ∧ (os.find fs (filepath.Clean d) = inr n ∧ disk w = fs
                ∨ (∃ e, os.find fs (filepath.Clean d) = inl e)
                  ∧ ∃ es, n = os.Dir es)
    | Some _ =>
        disk w = fs ∧ ∃ e, os.find fs (filepath.Clean d) = inl e
    end
  ∧ ∀ q b, os.ReadFile fs q = inr b → os.ReadFile (disk w) q = inr b.
Proof.
  unfold New. rewrite Stat_find.
  destruct (os.find fs (filepath.Clean d)) as [e|n] eqn:Hfind.
  - destruct (os.MkdirAll fs (filepath.Clean d)) as [fs1 err1] eqn:Hmk.
    simpl. intros [= <- <-]. simpl. split; [done|]. split.
    + destruct err1 as [e1|].
      * split; [|by eauto]. revert Hmk. unfold os.MkdirAll, os.update.
        case_decide; [by intros [= <-]|].
        by destruct (os.mkdirs _ _); intros [= <-].
      * destruct (MkdirAll_find _ _ _ Hmk) as [es Hes]. eauto 8.
    + intros q b. by apply (MkdirAll_keeps_file _ _ _ _ _ _ Hmk).
  - destruct n as [data|es]; intros [= <- <-]; simpl;
      (split; [done|]); (split; [|done]); eauto.
Qed.

(** X6.  [New] does not ask whether its path is a directory: on the path
    of a file it returns no error and touches nothing.  A [Write] with a
    plain collection name to that store fails with "not a directory" from
    [MkdirAll] and leaves the disk as it was. *)
Theorem New_on_a_file (d : string) (fs : os.FS) (b : list ascii) :
  os.find fs (filepath.Clean d) = inr (os.File b) →
  New d fs
  = (mkWorld (mkDriver Unlocked ∅ (filepath.Clean d)) fs
       [EvStat (filepath.Clean d)], None)
  ∧ ∀ c r v, plain c → r ≠ "" →
      ∃ w1, Write c r v (New d fs).1 = Returns (Some ErrNotDir) w1
            ∧ disk w1 = fs.
Proof.
  intros Hfind.
  assert (New d fs
          = (mkWorld (mkDriver Unlocked ∅ (filepath.Clean d)) fs
               [EvStat (filepath.Clean d)], None)) as ->.
  { unfold New. by rewrite Stat_find, Hfind. }
  split; [done|]. intros c r v Hc Hr. cbn [fst].
  set (w := mkWorld _ _ _).
  destruct (Write_returns c r v w) as (res & w1 & Hw); [done..|].
  exists w1. rewrite Hw.
  apply Write_inv in Hw as [(Hor & _)|(_ & _ & _ & _ & _ & evs & _ & Hfs)].
  { destruct Hc as (Hc & _). by destruct Hor. }
  simpl in Hfs. unfold collectionPath in Hfs. cbn [driver disk dir w] in Hfs.
  assert (os.MkdirAll fs (filepath.Join [filepath.Clean d; c])
          = (fs, Some ErrNotDir)) as Hmk.
  { unfold os.MkdirAll, os.update.
    rewrite decide_False
      by (unfold filepath.Join; rewrite decide_False by apply Clean_nonempty;
          apply Clean_nonempty).
    destruct (resolve_Join fs (filepath.Clean d) c c Hc Hc) as [-> _].
    unfold os.find in Hfind. rewrite decide_False in Hfind by apply Clean_nonempty.
    by rewrite (mkdirs_through_file _ _ _ _ Hfind). }
  rewrite Hmk in Hfs. simpl in Hfs. by destruct Hfs as (-> & -> & _).
Qed.

Lemma New_opens_store_data :
  driver dataStore = mkDriver Unlocked ∅ (filepath.Clean "./data")
  ∧ (∃ n, os.find (disk dataStore) (filepath.Clean "./data") = inr n
          ∧ (os.find emptyDisk (filepath.Clean "./data") = inr n
             ∧ disk dataStore = emptyDisk
             ∨ (∃ e, os.find emptyDisk (filepath.Clean "./data") = inl e)
               ∧ ∃ es, n = os.Dir es))
  ∧ ∀ q b, os.ReadFile emptyDisk q = inr b →
           os.ReadFile (disk dataStore) q = inr b.
Proof.
  apply (New_opens_store "./data" emptyDisk dataStore None).
  vm_compute; reflexivity.
Defined.

Lemma New_on_a_file_john :
  New "data/users/John Doe.json" (disk johnStore)
  = (mkWorld (mkDriver Unlocked ∅ (filepath.Clean "data/users/John Doe.json"))
       (disk johnStore) [EvStat (filepath.Clean "data/users/John Doe.json")],
     None)
  ∧ ∀ c r v, plain c → r ≠ "" →
      ∃ w1, Write c r v (New "data/users/John Doe.json" (disk johnStore)).1
            = Returns (Some ErrNotDir) w1
            ∧ disk w1 = disk johnStore.
Proof.
  apply (New_on_a_file "data/users/John Doe.json" (disk johnStore)
           (encoded john)).
  vm_compute; reflexivity.
Defined.

(** X7.  Opening a store again changes nothing: after a [New] that
    returned no error, [New] with the same path finds the path with one
    [Stat], returns the same driver and leaves the disk as it is.  The path
    is cleaned first, so [New] of a path and of its cleaned form are the
    same call. *)
Theorem New_again (d : string) (fs : os.FS) (w : World) :
  New d fs = (w, None) →
  New d (disk w)
  = (mkWorld (driver w) (disk w) [EvStat (filepath.Clean d)], None)
  ∧ New (filepath.Clean d) fs = New d fs.
Proof.
  intros Hnew. split; [|unfold New; by rewrite Clean_idem].
  destruct (New_store _ _ _ Hnew) as (Hdir & _ & n & Hfind & _).
  assert (driver w = mkDriver Unlocked ∅ (filepath.Clean d)) as Hdrv.
  { revert Hnew. unfold New. by destruct (os.Stat _ _); intros [= <-]. }
  rewrite Hdir in Hfind. unfold New. rewrite Stat_find, Hfind, Hdrv.
  by destruct n.
Qed.

Lemma New_again_data :
  New "./data" (disk dataStore)
  = (mkWorld (driver dataStore) (disk dataStore)
       [EvStat (filepath.Clean "./data")], None)
  ∧ New (filepath.Clean "./data") emptyDisk = New "./data" emptyDisk.
Proof.
  apply (New_again "./data" emptyDisk dataStore). vm_compute; reflexivity.
Defined.
